(** * AnnoyScript: a shallow embedding of [annoy.py]

    The development follows the layout of the program: comment
    preprocessing ([strip_comments]), the block parser ([parse_program],
    [parse_block]) and the tape machine ([AnnoyInterpreter]).  Python
    strings are lists of Unicode code points, the machine state of the
    interpreter object is an explicit record threaded through a state and
    exception monad, and [sys.stdin] / [sys.stdout] are two character
    streams kept in that record.  Integers are unbounded, as in Python;
    the interpreter's limit on the depth of recursion is left out. *)

From Stdlib Require Import ZArith NArith Lia Ascii String.
From stdpp Require Import base list.

Local Open Scope Z_scope.

(** ** Characters and strings *)

(** An element of a Python [str]: a Unicode code point. *)
Definition char := N.

Definition ord (a : ascii) : char := N_of_ascii a.

(** The code points of an ASCII string literal, for writing programs. *)
Fixpoint codes (s : string) : list char :=
  match s with
  | EmptyString => []
  | String a s' => ord a :: codes s'
  end.

Definition is_char (a : ascii) (ch : char) : bool := N.eqb ch (ord a).

(** [str.isspace] on a single character (CPython's whitespace table). *)
Definition isspace (ch : char) : bool :=
  ((9 <=? ch) && (ch <=? 13) || (28 <=? ch) && (ch <=? 32)
   || (ch =? 133) || (ch =? 160) || (ch =? 5760)
   || (8192 <=? ch) && (ch <=? 8202)
   || (ch =? 8232) || (ch =? 8233) || (ch =? 8239) || (ch =? 8287)
   || (ch =? 12288))%N.

(** The line boundaries recognised by [str.splitlines]. *)
Definition is_linebreak (ch : char) : bool :=
  ((10 <=? ch) && (ch <=? 13) || (28 <=? ch) && (ch <=? 30)
   || (ch =? 133) || (ch =? 8232) || (ch =? 8233))%N.

(** ** Comment preprocessing *)

(** [str.splitlines()]: the lines of [s] without their terminators.
    [line] holds the characters of the current line read so far.  A
    carriage return followed by a line feed is one terminator, and no
    empty line follows the last terminator. *)
Fixpoint splitlines_from (s : list char) (line : list char)
    : list (list char) :=
  match s with
  | [] => match line with [] => [] | _ => [line] end
  | c :: s' =>
      if is_linebreak c then
        if N.eqb c 13 then
          match s' with
          | c' :: s'' =>
              if N.eqb c' 10 then line :: splitlines_from s'' []
              else line :: splitlines_from s' []
          | [] => line :: splitlines_from s' []
          end
        else line :: splitlines_from s' []
      else splitlines_from s' (line ++ [c])
  end.

Definition splitlines (s : list char) : list (list char) :=
  splitlines_from s [].

(** [line.find(ch)] for a single character: the first index, or [-1]. *)
Fixpoint find (ch : char) (line : list char) : Z :=
  match line with
  | [] => -1
  | c :: line' =>
      if N.eqb c ch then 0
      else let r := find ch line' in
           if r =? -1 then -1 else r + 1
  end.

(** [sep.join(lines)] *)
Fixpoint join (sep : list char) (lines : list (list char)) : list char :=
  match lines with
  | [] => []
  | [line] => line
  | line :: more => line ++ sep ++ join sep more
  end.

(** The body of the [for line in lines] loop of [strip_comments]. *)
Definition strip_line (line : list char) : list char :=
  let semicolon_index := find (ord ";") line in
  if negb (semicolon_index =? -1)
  then take (Z.to_nat semicolon_index) line
  else line.

Definition strip_comments (source : list char) : list char :=
  let lines := splitlines source in
  let new_lines := map strip_line lines in
  join [10%N] new_lines.

(** ** Blocks *)

Inductive BlockType := normal | conditional.

(** A [Block] object: its [block_type] and its [items], each a literal
    string of operations or a nested [Block]. *)
Inductive Block :=
| mkBlock (bt : BlockType) (its : list Item)
with Item :=
| Literal (literal : list char)
| Nested (block : Block).

Definition block_type (b : Block) : BlockType :=
  match b with mkBlock bt _ => bt end.

Definition items (b : Block) : list Item :=
  match b with mkBlock _ its => its end.

(** ** Parser *)

Inductive ParseError :=
| UnexpectedCharacter (ch : char) (index : nat)
| ExpectedParen (index : nat)
| UnexpectedEnd (index : nat)
| InvalidToken (index : nat) (found : char)
| MissingClosingToken (closing_token : list char) (index : nat).

(** The result of a parsing function run with a bounded number of
    steps. *)
Inductive presult (A : Type) :=
| Parsed (a : A)
| ParseFail (e : ParseError)
| OutOfFuel.
Arguments Parsed {A} a.
Arguments ParseFail {A} e.
Arguments OutOfFuel {A}.

(** [items.append(literal_buffer)] when the buffer is not empty. *)
Definition flush (its : list Item) (literal_buffer : list char) : list Item :=
  match literal_buffer with
  | [] => its
  | _ => its ++ [Literal literal_buffer]
  end.

(** [source[index:index+2]] *)
Definition slice2 (source : list char) (index : nat) : list char :=
  take 2 (drop index source).

Definition list_char_eqb (a b : list char) : bool :=
  bool_decide (a = b).

(** [parse_block] and its [while index < len(source)] loop.  Every call
    and every iteration uses one unit of [fuel].  [source !! index] is
    [None] exactly when [index >= len(source)], and [source[index]]
    otherwise. *)
Fixpoint parse_block (fuel : nat) (source : list char) (index : nat)
    : presult (Block * nat) :=
  match fuel with
  | O => OutOfFuel
  | S fuel' =>
      match source !! index with
      | None => ParseFail (ExpectedParen index)
      | Some c0 =>
          if negb (is_char "(" c0) then ParseFail (ExpectedParen index)
          else
            let index := (index + 1)%nat in
            match source !! index with
            | None => ParseFail (UnexpectedEnd index)
            | Some c1 =>
                if is_char "<" c1 then
                  parse_block_loop fuel' source normal (codes ">)")
                    (index + 1) [] []
                else if is_char "?" c1 then
                  parse_block_loop fuel' source conditional (codes "?)")
                    (index + 1) [] []
                else ParseFail (InvalidToken index c1)
            end
      end
  end
with parse_block_loop (fuel : nat) (source : list char)
    (block_type : BlockType) (closing_token : list char) (index : nat)
    (its : list Item) (literal_buffer : list char)
    : presult (Block * nat) :=
  match fuel with
  | O => OutOfFuel
  | S fuel' =>
      match source !! index with
      | None => ParseFail (MissingClosingToken closing_token index)
      | Some c =>
          if list_char_eqb (slice2 source index) closing_token then
            Parsed (mkBlock block_type (flush its literal_buffer),
                    (index + 2)%nat)
          else if is_char "(" c
                  && match source !! (index + 1)%nat with
                     | Some c' => is_char "<" c' || is_char "?" c'
                     | None => false
                     end then
            match parse_block fuel' source index with
            | Parsed (nested_block, index') =>
                parse_block_loop fuel' source block_type closing_token
                  index' (flush its literal_buffer ++ [Nested nested_block])
                  []
            | ParseFail e => ParseFail e
            | OutOfFuel => OutOfFuel
            end
          else
            parse_block_loop fuel' source block_type closing_token
              (index + 1) its (literal_buffer ++ [c])
      end
  end.

(** The [while index < len(source)] loop of [parse_program]. *)
Fixpoint parse_program_from (fuel : nat) (source : list char) (index : nat)
    (blocks : list Block) : presult (list Block) :=
  match fuel with
  | O => OutOfFuel
  | S fuel' =>
      match source !! index with
      | None => Parsed blocks
      | Some c =>
          if isspace c then parse_program_from fuel' source (index + 1) blocks
          else if is_char "(" c then
            match parse_block fuel' source index with
            | Parsed (block, index') =>
                parse_program_from fuel' source index' (blocks ++ [block])
            | ParseFail e => ParseFail e
            | OutOfFuel => OutOfFuel
            end
          else ParseFail (UnexpectedCharacter c index)
      end
  end.

(** One unit of fuel for each character and one for leaving the loop. *)
Definition parse_program (source : list char) : presult (list Block) :=
  parse_program_from (S (length source)) source 0 [].

(** ** Machine state *)

Record State := mkState {
  tape : list Z;
  pointer : Z;
  instruction_counter : Z;
  stdin : list char;
  stdout : list char
}.

(** [AnnoyInterpreter.__init__], with the characters waiting on standard
    input. *)
Definition initial_state (input : list char) : State :=
  {| tape := replicate 128 0; pointer := 0; instruction_counter := 0;
     stdin := input; stdout := [] |}.

Definition set_tape (t : list Z) (st : State) : State :=
  {| tape := t; pointer := pointer st;
     instruction_counter := instruction_counter st;
     stdin := stdin st; stdout := stdout st |}.

Definition set_pointer (p : Z) (st : State) : State :=
  {| tape := tape st; pointer := p;
     instruction_counter := instruction_counter st;
     stdin := stdin st; stdout := stdout st |}.

Definition set_instruction_counter (n : Z) (st : State) : State :=
  {| tape := tape st; pointer := pointer st; instruction_counter := n;
     stdin := stdin st; stdout := stdout st |}.

Definition set_stdin (i : list char) (st : State) : State :=
  {| tape := tape st; pointer := pointer st;
     instruction_counter := instruction_counter st;
     stdin := i; stdout := stdout st |}.

Definition set_stdout (o : list char) (st : State) : State :=
  {| tape := tape st; pointer := pointer st;
     instruction_counter := instruction_counter st;
     stdin := stdin st; stdout := o |}.

(** ** Exceptions and the interpreter monad *)

Inductive RuntimeError :=
| DisplayOfDismay (cell : Z) (value : Z)
| InputError
| UnknownOperation (ch : char) (depth : nat)
| IndexError.

Inductive outcome (A : Type) :=
| Ok (a : A)
| Raise (e : RuntimeError).
Arguments Ok {A} a.
Arguments Raise {A} e.

(** A computation mutates the interpreter object and either returns or
    raises; the mutations made before a [raise] stay. *)
Definition M (A : Type) : Type := State -> outcome A * State.

Definition ret {A} (a : A) : M A := fun st => (Ok a, st).

Definition bind {A B} (m : M A) (k : A -> M B) : M B :=
  fun st =>
    match m st with
    | (Ok a, st') => k a st'
    | (Raise e, st') => (Raise e, st')
    end.

Definition raise {A} (e : RuntimeError) : M A := fun st => (Raise e, st).

Definition get : M State := fun st => (Ok st, st).

Definition modify (f : State -> State) : M unit := fun st => (Ok tt, f st).

Declare Scope interp_scope.
Delimit Scope interp_scope with interp.
Notation "x <- c1 ;; c2" := (bind c1 (fun x => c2))
  (at level 100, c1 at next level, right associativity) : interp_scope.
Notation "c1 ;; c2" := (bind c1 (fun _ => c2))
  (at level 100, right associativity) : interp_scope.
Local Open Scope interp_scope.

(** ** Python list indexing *)

(** [l[i]] resolves a negative [i] from the end and raises [IndexError]
    outside [-len(l) .. len(l)-1]. *)
Definition py_index (len : nat) (i : Z) : option nat :=
  let j := if i <? 0 then i + Z.of_nat len else i in
  if (0 <=? j) && (j <? Z.of_nat len) then Some (Z.to_nat j) else None.

(** [self.tape[self.pointer]] *)
Definition read_cell : M Z := fun st =>
  match py_index (length (tape st)) (pointer st) with
  | Some i =>
      match tape st !! i with
      | Some v => (Ok v, st)
      | None => (Raise IndexError, st)
      end
  | None => (Raise IndexError, st)
  end.

(** [self.tape[self.pointer] = v] *)
Definition write_cell (v : Z) : M unit := fun st =>
  match py_index (length (tape st)) (pointer st) with
  | Some i => (Ok tt, set_tape (<[i := v]> (tape st)) st)
  | None => (Raise IndexError, st)
  end.

(** ** Literal execution *)

(** The [for k in range(1, count + 1)] loop of [execute_literal]. *)
Definition run_effect (ch : char) (depth : nat) (count : nat) : Z :=
  fold_left
    (fun effect k =>
       if is_char "+" ch
       then effect + (if Nat.even depth then Z.of_nat k else - Z.of_nat k)
       else effect - (if Nat.even depth then Z.of_nat k else - Z.of_nat k))
    (seq 1 count) 0.

(** The body of the [+]/[-] branch once the run has been counted. *)
Definition apply_run (ch : char) (depth : nat) (count : nat) : M unit :=
  v <- read_cell ;;
  write_cell ((v + run_effect ch depth count) mod 256).

(** The [.] branch. *)
Definition op_output : M unit :=
  value <- read_cell ;;
  st <- get ;;
  if (value <? 32) || (value >? 126)
  then raise (DisplayOfDismay (pointer st) value)
  else modify (fun st => set_stdout (stdout st ++ [Z.to_N value]) st).

(** The [,] branch. *)
Definition op_input : M unit :=
  st <- get ;;
  match stdin st with
  | [] => raise InputError
  | inp :: more =>
      modify (set_stdin more) ;;
      write_cell (Z.of_N inp mod 256)
  end.

(** The [while i < len(literal)] loop of [execute_literal]: [literal] is
    the part of the string from index [i] on.  The inner function is the
    [while j < len(literal) and literal[j] == ch] loop; it leaves with
    the string from index [j] on, where the outer loop resumes. *)
Fixpoint execute_literal_from (literal : list char) (depth : nat)
    (pointer_override : Z) {struct literal} : M Z :=
  match literal with
  | [] => ret pointer_override
  | ch :: rest =>
      if is_char "+" ch || is_char "-" ch then
        (fix count_run (r : list char) (count : nat) {struct r} : M Z :=
           match r with
           | c :: r' =>
               if N.eqb c ch then count_run r' (S count)
               else apply_run ch depth count ;;
                    execute_literal_from r depth pointer_override
           | [] => apply_run ch depth count ;;
                   execute_literal_from r depth pointer_override
           end) rest 1%nat
      else if is_char "^" ch || is_char "v" ch then
        execute_literal_from rest depth
          (if is_char "^" ch
           then pointer_override + (if Nat.even depth then 1 else -1)
           else pointer_override + (if Nat.even depth then -1 else 1))
      else if is_char "." ch then
        op_output ;; execute_literal_from rest depth pointer_override
      else if is_char "," ch then
        op_input ;; execute_literal_from rest depth pointer_override
      else if is_char "#" ch then
        write_cell 0 ;; execute_literal_from rest depth pointer_override
      else if isspace ch then
        execute_literal_from rest depth pointer_override
      else raise (UnknownOperation ch depth)
  end.

Definition execute_literal (literal : list char) (depth : nat) : M Z :=
  execute_literal_from literal depth 0.

(** ** Block execution *)

(** [self.instruction_counter += 1] *)
Definition count_instruction : M unit :=
  modify (fun st => set_instruction_counter (instruction_counter st + 1) st).

(** [AnnoyInterpreter.apply_pointer_movement] *)
Definition apply_pointer_movement (override : Z) : M unit :=
  modify (fun st =>
    if negb (override =? 0) then
      set_pointer ((pointer st + override) mod 128) st
    else if instruction_counter st mod 2 =? 1 then
      set_pointer ((pointer st - 1) mod 128) st
    else
      set_pointer ((pointer st + 1) mod 128) st).

Section Items.
Variable execute_block : Block -> nat -> M unit.

(** The [for item in block.items] loop of [execute_block], with the
    recursive call left open. *)
Fixpoint execute_items (its : list Item) (depth : nat)
    (block_pointer_override : Z) : M Z :=
  match its with
  | [] => ret block_pointer_override
  | Literal literal :: more =>
      override <- execute_literal literal depth ;;
      execute_items more depth (block_pointer_override + override)
  | Nested block :: more =>
      execute_block block (depth + 1) ;;
      execute_items more depth block_pointer_override
  end.
End Items.

(** [AnnoyInterpreter.execute_block]; [body] is the part behind the test
    of the conditional. *)
Fixpoint execute_block (block : Block) (depth : nat) {struct block} : M unit :=
  match block with
  | mkBlock bt its =>
      let body :=
        block_pointer_override <- execute_items execute_block its depth 0 ;;
        count_instruction ;;
        apply_pointer_movement block_pointer_override in
      match bt with
      | conditional =>
          v <- read_cell ;;
          if v =? 0 then
            count_instruction ;;
            apply_pointer_movement 0
          else body
      | normal => body
      end
  end.

(** [AnnoyInterpreter.run] *)
Fixpoint run (blocks : list Block) : M unit :=
  match blocks with
  | [] => ret tt
  | block :: more => execute_block block 0 ;; run more
  end.

(** * Definitions used by the properties *)

(** ** Runs and whitespace in a literal *)

Definition is_plus_minus (ch : char) : bool := is_char "+" ch || is_char "-" ch.

(** The number of leading characters of [r] equal to [ch], and what
    follows them. *)
Fixpoint run_count (ch : char) (r : list char) : nat :=
  match r with
  | c :: r' => if N.eqb c ch then S (run_count ch r') else O
  | [] => O
  end.

Fixpoint run_tail (ch : char) (r : list char) : list char :=
  match r with
  | c :: r' => if N.eqb c ch then run_tail ch r' else r
  | [] => []
  end.

(** The sum [1 + 2 + ... + n]. *)
Definition triangular (n : nat) : Z := Z.of_nat n * (Z.of_nat n + 1) / 2.

(** The two parts of a literal meet inside a run: the last character of
    the first and the first of the second are the same [+] or [-]. *)
Definition joins_run (pre l : list char) : Prop :=
  exists c, is_plus_minus c = true /\ last pre = Some c /\ head l = Some c.

(** The literal without its whitespace characters. *)
Definition remove_whitespace (l : list char) : list char :=
  List.filter (fun c => negb (isspace c)) l.

(** Some whitespace of [l] stands between two equal [+] or [-]
    characters, with nothing else between them. *)
Definition whitespace_splits_run (l : list char) : Prop :=
  exists pre ws post c,
    l = pre ++ c :: ws ++ c :: post /\
    is_plus_minus c = true /\ ws <> [] /\
    Forall (fun w => isspace w = true) ws.

(** A test for [whitespace_splits_run]. *)
Fixpoint skip_whitespace (l : list char) : list char :=
  match l with
  | w :: l' => if isspace w then skip_whitespace l' else l
  | [] => []
  end.

Definition gap_before (c : char) (l : list char) : bool :=
  match l with
  | w :: _ =>
      isspace w &&
      match skip_whitespace l with
      | x :: _ => N.eqb x c
      | [] => false
      end
  | [] => false
  end.

Fixpoint splits_run (l : list char) : bool :=
  match l with
  | c :: l' => is_plus_minus c && gap_before c l' || splits_run l'
  | [] => false
  end.

(** ** Induction over block trees *)

Section BlockInduction.
Variable P : Block -> Prop.
Variable Q : list Item -> Prop.
Hypothesis Hblock : forall bt its, Q its -> P (mkBlock bt its).
Hypothesis Hnil : Q [].
Hypothesis Hliteral : forall literal more, Q more -> Q (Literal literal :: more).
Hypothesis Hnested : forall block more, P block -> Q more -> Q (Nested block :: more).

Fixpoint Block_tree_ind (block : Block) : P block :=
  match block with
  | mkBlock bt its =>
      Hblock bt its
        ((fix items_ind (its : list Item) : Q its :=
            match its with
            | [] => Hnil
            | Literal literal :: more => Hliteral literal more (items_ind more)
            | Nested b :: more =>
                Hnested b more (Block_tree_ind b) (items_ind more)
            end) its)
  end.
End BlockInduction.

(** ** Phases of a block execution *)

(** What [execute_block] does before it counts the block: nothing when a
    conditional block finds a zero cell, the loop over the items
    otherwise.  The result is the override handed to
    [apply_pointer_movement]. *)
Definition block_items (block : Block) (depth : nat) : M Z :=
  match block with
  | mkBlock conditional its =>
      v <- read_cell ;;
      if v =? 0 then ret 0 else execute_items execute_block its depth 0
  | mkBlock normal its => execute_items execute_block its depth 0
  end.

(** The contribution of one character to the override: [^] gives [+1] at
    even depth and [-1] at odd depth, [v] the opposite, any other
    character nothing. *)
Definition char_override (ch : char) (depth : nat) : Z :=
  if is_char "^" ch then (if Nat.even depth then 1 else -1)
  else if is_char "v" ch then (if Nat.even depth then -1 else 1)
  else 0.

(** The override a literal returns when it runs to its end. *)
Fixpoint literal_override (literal : list char) (depth : nat) : Z :=
  match literal with
  | [] => 0
  | ch :: rest => char_override ch depth + literal_override rest depth
  end.

(** The sum over the literals that are items of the block itself;
    nested blocks are passed over. *)
Fixpoint direct_override (its : list Item) (depth : nat) : Z :=
  match its with
  | [] => 0
  | Literal literal :: more =>
      literal_override literal depth + direct_override more depth
  | Nested _ :: more => direct_override more depth
  end.

(** The items of a block are run: the block is a normal one, or a
    conditional one on a cell that is not zero. *)
Definition body_runs (bt : BlockType) (st : State) : bool :=
  match bt with
  | normal => true
  | conditional =>
      match read_cell st with
      | (Ok v, _) => negb (v =? 0)
      | (Raise _, _) => false
      end
  end.

(** ** State properties *)

(** A property of the state that survives the three kinds of change a
    literal makes: storing a byte under the pointer, consuming input,
    and emitting output. *)
Record literal_stable (P : State -> Prop) : Prop := {
  stable_write : forall st v, 0 <= v < 256 -> P st -> P (snd (write_cell v st));
  stable_stdin : forall st i, P st -> P (set_stdin i st);
  stable_stdout : forall st o, P st -> P (set_stdout o st)
}.

(** [m] keeps [P], whether it returns or raises. *)
Definition preserves {A} (P : State -> Prop) (m : M A) : Prop :=
  forall st, P st -> P (snd (m st)).

(** The tape has its 128 cells, every cell holds a byte, and the pointer
    is an index of the tape. *)
Definition machine_invariant (st : State) : Prop :=
  length (tape st) = 128%nat /\
  Forall (fun v => 0 <= v <= 255) (tape st) /\
  0 <= pointer st <= 127.

(** ** Visited blocks *)

Section Visits.
Variable visited_block : Block -> nat -> State -> nat.

(** The blocks visited while the items [its] run from [st]: those of
    each nested block, entered in the state its predecessors leave. *)
Fixpoint visited_items (its : list Item) (depth : nat) (st : State) : nat :=
  match its with
  | [] => 0
  | Literal literal :: more =>
      match execute_literal literal depth st with
      | (Ok _, st') => visited_items more depth st'
      | (Raise _, _) => 0
      end
  | Nested block :: more =>
      visited_block block (depth + 1) st +
      match execute_block block (depth + 1) st with
      | (Ok _, st') => visited_items more depth st'
      | (Raise _, _) => 0
      end
  end%nat.
End Visits.

(** The number of block nodes visited by [execute_block block depth]
    from [st]: the block itself and, when its items run, those visited
    inside. *)
Fixpoint visited_block (block : Block) (depth : nat) (st : State) : nat :=
  match block with
  | mkBlock bt its =>
      S (if body_runs bt st then visited_items visited_block its depth st
         else 0)
  end.

(** The blocks visited by [run blocks] from [st]. *)
Fixpoint visited_run (blocks : list Block) (st : State) : nat :=
  match blocks with
  | [] => 0
  | block :: more =>
      visited_block block 0 st +
      match execute_block block 0 st with
      | (Ok _, st') => visited_run more st'
      | (Raise _, _) => 0
      end
  end%nat.

Section Nodes.
Variable block_nodes : Block -> nat.

Fixpoint items_nodes (its : list Item) : nat :=
  match its with
  | [] => 0
  | Literal _ :: more => items_nodes more
  | Nested b :: more => block_nodes b + items_nodes more
  end%nat.
End Nodes.

(** All block nodes of a tree, visited or not. *)
Fixpoint block_nodes (block : Block) : nat :=
  match block with
  | mkBlock _ its => S (items_nodes block_nodes its)
  end.

(** The state in which a block ends, from the state and the override
    its items leave. *)
Definition block_end (override : Z) (st : State) : State :=
  snd ((count_instruction ;; apply_pointer_movement override) st).

(** ** Parsing results *)

(** What the two parsing functions return: an index inside the source
    behind at least the markers consumed, the length of the source in a
    missing-closing-token error, and no loss of fuel while the fuel
    exceeds the number of characters left. *)
Definition parse_result_ok (source : list char) (index consumed : nat)
    (starved : Prop) (r : presult (Block * nat)) : Prop :=
  match r with
  | Parsed (_, index') =>
      (index + consumed <= index' /\ index' <= length source)%nat
  | ParseFail (MissingClosingToken _ i) => i = length source
  | ParseFail _ => True
  | OutOfFuel => starved
  end.

(** ** Lines and comments *)

(** [new_line] is [line] without its comment: what was removed is
    nothing, or starts at a semicolon, and no semicolon is left. *)
Definition comment_cut (line new_line : list char) : Prop :=
  exists comment,
    line = new_line ++ comment /\
    (ord ";" ∉ new_line) /\
    (comment = [] \/ head comment = Some (ord ";")).


(** A line holds no line terminator. *)
Definition no_linebreak (line : list char) : Prop :=
  Forall (fun c => is_linebreak c = false) line.



(** ** Steps of the machine *)

(** [m] keeps [P] and raises only exceptions in [E]. *)
Definition respects {A} (P : State -> Prop) (E : RuntimeError -> Prop)
    (m : M A) : Prop :=
  forall st, P st ->
    P (snd (m st)) /\ forall e, fst (m st) = Raise e -> E e.

(** [P] and [E] go along with each step a literal can take: reading and
    storing the cell under the pointer, taking the next input character,
    writing a printable character, and raising one of its three
    exceptions. *)
Record literal_steps (P : State -> Prop) (E : RuntimeError -> Prop) : Prop := {
  step_read : forall st e, P st -> fst (read_cell st) = Raise e -> E e;
  step_write : forall st v, 0 <= v < 256 -> P st ->
    P (snd (write_cell v st)) /\
    forall e, fst (write_cell v st) = Raise e -> E e;
  step_input : forall st inp more,
    stdin st = inp :: more -> P st -> P (set_stdin more st);
  step_output : forall st v, 32 <= v <= 126 -> P st ->
    P (set_stdout (stdout st ++ [Z.to_N v]) st);
  step_dismay : forall cell value, E (DisplayOfDismay cell value);
  step_input_error : E InputError;
  step_unknown : forall ch depth, E (UnknownOperation ch depth)
}.

(** [P] goes along with the two steps that end a block. *)
Record block_steps (P : State -> Prop) : Prop := {
  step_count : forall st, P st ->
    P (set_instruction_counter (instruction_counter st + 1) st);
  step_move : forall st p, 0 <= p < 128 -> P st -> P (set_pointer p st)
}.

(** ** Characters of a literal *)

(** The characters [execute_literal] has a branch for, whitespace
    apart. *)
Definition is_operator (ch : char) : bool :=
  is_plus_minus ch || is_char "^" ch || is_char "v" ch
  || is_char "." ch || is_char "," ch || is_char "#" ch.

(** The number of occurrences of the ASCII character [a] in [l]. *)
Fixpoint count_char (a : ascii) (l : list char) : Z :=
  match l with
  | [] => 0
  | c :: l' => (if is_char a c then 1 else 0) + count_char a l'
  end.

(** ** Depth and polarity *)

(** The outcome without the depth an [UnknownOperation] records. *)
Definition forget_depth {A} (r : outcome A) : outcome A :=
  match r with
  | Raise (UnknownOperation ch _) => Raise (UnknownOperation ch 0)
  | _ => r
  end.

(** Two executions end in the same state with the same outcome, the
    recorded depth apart. *)
Definition agree {A} (x y : outcome A * State) : Prop :=
  snd x = snd y /\ forget_depth (fst x) = forget_depth (fst y).

(** The operator of opposite polarity: [+] for [-], [^] for [v], and
    back; any other character is its own. *)
Definition opposite (ch : char) : char :=
  if is_char "+" ch then ord "-"
  else if is_char "-" ch then ord "+"
  else if is_char "^" ch then ord "v"
  else if is_char "v" ch then ord "^"
  else ch.

Section Opposite.
Variable opposite_block : Block -> Block.

Definition opposite_item (item : Item) : Item :=
  match item with
  | Literal literal => Literal (map opposite literal)
  | Nested block => Nested (opposite_block block)
  end.
End Opposite.

(** The block with every operator of every literal, at every level,
    replaced by its opposite. *)
Fixpoint opposite_block (block : Block) : Block :=
  match block with
  | mkBlock bt its => mkBlock bt (map (opposite_item opposite_block) its)
  end.

(** ** The text of a program *)

Definition opening_token (bt : BlockType) : list char :=
  match bt with
  | normal => codes "(<"
  | conditional => codes "(?"
  end.

Definition closing_token_of (bt : BlockType) : list char :=
  match bt with
  | normal => codes ">)"
  | conditional => codes "?)"
  end.

Section Unparse.
Variable unparse_block : Block -> list char.

Definition unparse_item (item : Item) : list char :=
  match item with
  | Literal literal => literal
  | Nested block => unparse_block block
  end.

Definition unparse_items (its : list Item) : list char :=
  concat (map unparse_item its).
End Unparse.

(** The text of a block: its opening token, its items in order, its
    closing token. *)
Fixpoint unparse_block (block : Block) : list char :=
  match block with
  | mkBlock bt its =>
      opening_token bt ++ unparse_items unparse_block its
      ++ closing_token_of bt
  end.

(** [source] is the text of [blocks], in order, with whitespace before,
    between and after them. *)
Inductive program_text : list char -> list Block -> Prop :=
| program_text_nil ws :
    Forall (fun c => isspace c = true) ws ->
    program_text ws []
| program_text_cons ws block rest blocks :
    Forall (fun c => isspace c = true) ws ->
    program_text rest blocks ->
    program_text (ws ++ unparse_block block ++ rest) (block :: blocks).

(** A character that starts neither a nested block nor a closing
    token. *)
Definition plain (ch : char) : bool :=
  negb (is_char "(" ch || is_char ">" ch || is_char "?" ch).

Definition is_literal (item : Item) : bool :=
  match item with
  | Literal _ => true
  | Nested _ => false
  end.

Section Canonical.
Variable canonical_block : Block -> bool.

(** Literals are not empty, hold plain characters only, and no two of
    them are neighbours. *)
Fixpoint canonical_items (its : list Item) : bool :=
  match its with
  | [] => true
  | Literal literal :: more =>
      negb (bool_decide (literal = [])) && forallb plain literal
      && negb (match more with item :: _ => is_literal item | [] => false end)
      && canonical_items more
  | Nested block :: more => canonical_block block && canonical_items more
  end.
End Canonical.

Fixpoint canonical_block (block : Block) : bool :=
  match block with
  | mkBlock _ its => canonical_items canonical_block its
  end.

(** The text of a block that is never closed: an opening token and
    well-formed items, then the end of the text or another block that is
    never closed.  [bt] is the type of the innermost such block. *)
Inductive open_block_text : list char -> BlockType -> Prop :=
| open_block_end bt its :
    canonical_items canonical_block its = true ->
    open_block_text (opening_token bt ++ unparse_items unparse_block its) bt
| open_block_nested bt its inner bt' :
    canonical_items canonical_block its = true ->
    open_block_text inner bt' ->
    open_block_text
      (opening_token bt ++ unparse_items unparse_block its ++ inner) bt'.

(** ** Text before a comment *)

(** The characters of a line before its first semicolon. *)
Fixpoint before_semicolon (line : list char) : list char :=
  match line with
  | [] => []
  | c :: line' => if N.eqb c (ord ";") then [] else c :: before_semicolon line'
  end.

(** ** Size of a program *)

(** All block nodes of a program. *)
Fixpoint program_nodes (blocks : list Block) : nat :=
  match blocks with
  | [] => 0
  | block :: more => block_nodes block + program_nodes more
  end%nat.
(** * Properties *)

(** ** Runs of [+] and [-] *)

Lemma triangular_succ n : triangular (S n) = triangular n + Z.of_nat (S n).
Proof.
  unfold triangular.
  replace (Z.of_nat (S n) * (Z.of_nat (S n) + 1))
    with (Z.of_nat n * (Z.of_nat n + 1) + Z.of_nat (S n) * 2) by lia.
  rewrite Z.div_add by lia. reflexivity.
Qed.

Lemma run_effect_succ ch depth n :
  run_effect ch depth (S n) =
  if is_char "+" ch
  then run_effect ch depth n
       + (if Nat.even depth then Z.of_nat (S n) else - Z.of_nat (S n))
  else run_effect ch depth n
       - (if Nat.even depth then Z.of_nat (S n) else - Z.of_nat (S n)).
Proof.
  unfold run_effect. rewrite seq_S, fold_left_app. simpl.
  destruct (is_char "+" ch); reflexivity.
Qed.

Lemma run_effect_triangular ch depth n :
  run_effect ch depth n =
  if Nat.even depth
  then (if is_char "+" ch then triangular n else - triangular n)
  else (if is_char "+" ch then - triangular n else triangular n).
Proof.
  induction n as [|n IH].
  - unfold run_effect, triangular. simpl.
    destruct (Nat.even depth), (is_char "+" ch); reflexivity.
  - rewrite run_effect_succ, IH, triangular_succ.
    destruct (Nat.even depth), (is_char "+" ch); lia.
Qed.

(** The loop over a run: the characters equal to [ch] are counted and
    the scan resumes behind them. *)
Lemma execute_literal_from_run ch rest depth po :
  is_plus_minus ch = true ->
  execute_literal_from (ch :: rest) depth po =
  (apply_run ch depth (S (run_count ch rest)) ;;
   execute_literal_from (run_tail ch rest) depth po).
Proof.
  intros Hpm. unfold is_plus_minus in Hpm.
  change (S (run_count ch rest)) with (1 + run_count ch rest)%nat.
  simpl execute_literal_from at 1. rewrite Hpm.
  generalize 1%nat. induction rest as [|c r IH]; intros n.
  - simpl. rewrite Nat.add_0_r. reflexivity.
  - simpl. destruct (N.eqb c ch).
    + rewrite IH. rewrite Nat.add_succ_r. reflexivity.
    + rewrite Nat.add_0_r. reflexivity.
Qed.

Lemma execute_literal_from_other ch rest depth po :
  is_plus_minus ch = false ->
  execute_literal_from (ch :: rest) depth po =
  if is_char "^" ch || is_char "v" ch then
    execute_literal_from rest depth
      (if is_char "^" ch
       then po + (if Nat.even depth then 1 else -1)
       else po + (if Nat.even depth then -1 else 1))
  else if is_char "." ch then
    op_output ;; execute_literal_from rest depth po
  else if is_char "," ch then
    op_input ;; execute_literal_from rest depth po
  else if is_char "#" ch then
    write_cell 0 ;; execute_literal_from rest depth po
  else if isspace ch then execute_literal_from rest depth po
  else raise (UnknownOperation ch depth).
Proof.
  intros Hpm. unfold is_plus_minus in Hpm. simpl. rewrite Hpm. reflexivity.
Qed.

Lemma run_tail_length ch r : (length (run_tail ch r) <= length r)%nat.
Proof.
  induction r as [|c r IH]; simpl; [lia|].
  destruct (N.eqb c ch); simpl; lia.
Qed.

Lemma run_split ch r : r = replicate (run_count ch r) ch ++ run_tail ch r.
Proof.
  induction r as [|c r IH]; simpl; [reflexivity|].
  destruct (N.eqb_spec c ch) as [->|]; simpl; [f_equal; exact IH | reflexivity].
Qed.

Lemma run_tail_head ch r : head (run_tail ch r) <> Some ch.
Proof.
  induction r as [|c r IH]; simpl; [discriminate|].
  destruct (N.eqb_spec c ch); [exact IH|]. simpl. congruence.
Qed.

Lemma run_of_replicate ch n l :
  head l <> Some ch ->
  run_count ch (replicate n ch ++ l) = n /\
  run_tail ch (replicate n ch ++ l) = l.
Proof.
  intros Hl. induction n as [|n [IH1 IH2]]; simpl.
  - destruct l as [|c l]; simpl; [split; reflexivity|].
    destruct (N.eqb_spec c ch) as [->|]; [simpl in Hl; congruence|].
    split; reflexivity.
  - rewrite N.eqb_refl, IH1, IH2. split; reflexivity.
Qed.

Lemma run_app ch r l :
  run_tail ch r <> [] \/ head l <> Some ch ->
  run_count ch (r ++ l) = run_count ch r /\
  run_tail ch (r ++ l) = run_tail ch r ++ l.
Proof.
  intros H. induction r as [|c r IH]; simpl in *.
  - destruct H as [H|H]; [congruence|].
    destruct l as [|c l]; simpl; [split; reflexivity|].
    destruct (N.eqb_spec c ch) as [->|]; [simpl in H; congruence|].
    split; reflexivity.
  - destruct (N.eqb c ch); [|split; reflexivity].
    destruct (IH H) as [-> ->]. split; reflexivity.
Qed.

Lemma last_run_tail ch r :
  run_tail ch r <> [] -> last (run_tail ch r) = last r.
Proof.
  induction r as [|c r IH]; simpl; [congruence|].
  destruct (N.eqb_spec c ch) as [->|]; [|reflexivity].
  intros H. rewrite (IH H). destruct r as [|c' r]; [simpl in H; congruence|].
  reflexivity.
Qed.

Lemma last_run_all ch r : run_tail ch r = [] -> last (ch :: r) = Some ch.
Proof.
  induction r as [|c r IH]; simpl; [reflexivity|].
  destruct (N.eqb_spec c ch) as [->|]; [|discriminate].
  intros H. specialize (IH H). destruct r; [reflexivity|exact IH].
Qed.

(** ** Splitting a literal *)

Lemma bind_ret_l {A B} (a : A) (k : A -> M B) st : (x <- ret a ;; k x) st = k a st.
Proof. reflexivity. Qed.

Lemma bind_assoc {A B C} (m : M A) (f : A -> M B) (g : B -> M C) st :
  (y <- (x <- m ;; f x) ;; g y) st = (x <- m ;; y <- f x ;; g y) st.
Proof. unfold bind. destruct (m st) as [[a|e] st1]; reflexivity. Qed.

Lemma bind_ext {A B} (m : M A) (f g : A -> M B) st :
  (forall a st', f a st' = g a st') ->
  (x <- m ;; f x) st = (x <- m ;; g x) st.
Proof. intros H. unfold bind. destruct (m st) as [[a|e] st1]; auto. Qed.

Lemma joins_run_cons c pre l :
  pre <> [] -> joins_run pre l -> joins_run (c :: pre) l.
Proof.
  intros Hne (x & Hx & Hlast & Hhead). exists x. repeat split; auto.
  destruct pre; [congruence|exact Hlast].
Qed.

Lemma execute_literal_from_app depth l :
  forall pre po st,
  ~ joins_run pre l ->
  execute_literal_from (pre ++ l) depth po st =
  (po' <- execute_literal_from pre depth po ;;
   execute_literal_from l depth po') st.
Proof.
  intros pre. remember (length pre) as n eqn:Hn.
  revert pre Hn. induction n as [n IH] using lt_wf_ind.
  intros [|ch rest] Hn po st Hj; [reflexivity|].
  simpl in Hn. rewrite <- app_comm_cons.
  destruct (is_plus_minus ch) eqn:Hpm.
  - rewrite !execute_literal_from_run by exact Hpm.
    assert (Hor : run_tail ch rest <> [] \/ head l <> Some ch).
    { destruct (run_tail ch rest) eqn:Ht; [right|left; discriminate].
      intros Hh. apply Hj. exists ch. auto using last_run_all. }
    destruct (run_app ch rest l Hor) as [-> ->].
    rewrite bind_assoc. apply bind_ext. intros _ st'.
    destruct (run_tail ch rest) eqn:Ht; [reflexivity|]. rewrite <- Ht.
    eapply IH; [|reflexivity|].
    + pose proof (run_tail_length ch rest). lia.
    + intros (x & Hx & Hlast & Hhead). apply Hj. exists x. repeat split; auto.
      rewrite last_run_tail in Hlast by (rewrite Ht; discriminate).
      destruct rest; [discriminate|exact Hlast].
  - assert (Hrec : forall po0 st0,
      execute_literal_from (rest ++ l) depth po0 st0 =
      (po' <- execute_literal_from rest depth po0 ;;
       execute_literal_from l depth po') st0).
    { intros po0 st0. destruct rest as [|c' rest'] eqn:Hrest; [reflexivity|].
      eapply IH; [|reflexivity|]; [simpl in *; lia|].
      intros Hj'. apply Hj. apply joins_run_cons; [discriminate|exact Hj']. }
    rewrite !execute_literal_from_other by exact Hpm.
    repeat match goal with
    | |- context [if ?b then _ else _] => destruct b
    end; try apply Hrec; try reflexivity;
    rewrite bind_assoc; apply bind_ext; intros; apply Hrec.
Qed.




(** ** Whitespace in a literal *)

Lemma is_char_eq a ch : is_char a ch = true -> ch = ord a.
Proof. unfold is_char. apply N.eqb_eq. Qed.

Lemma plus_minus_not_space ch : is_plus_minus ch = true -> isspace ch = false.
Proof.
  unfold is_plus_minus. intros H. apply orb_true_iff in H.
  destruct H as [H|H]; apply is_char_eq in H; subst ch; reflexivity.
Qed.

Lemma space_is_no_operator ch :
  isspace ch = true ->
  is_plus_minus ch = false /\ is_char "^" ch = false /\
  is_char "v" ch = false /\ is_char "." ch = false /\
  is_char "," ch = false /\ is_char "#" ch = false.
Proof.
  intros Hs. unfold is_plus_minus.
  repeat split;
    repeat match goal with
    | |- _ || _ = false => apply orb_false_iff; split
    | |- is_char ?a ch = false =>
        destruct (is_char a ch) eqn:E; [|reflexivity];
        apply is_char_eq in E; subst ch; discriminate Hs
    end.
Qed.

Lemma execute_literal_from_space ch rest depth po :
  isspace ch = true ->
  execute_literal_from (ch :: rest) depth po =
  execute_literal_from rest depth po.
Proof.
  intros Hs.
  destruct (space_is_no_operator ch Hs) as (Hpm & H1 & H2 & H3 & H4 & H5).
  rewrite execute_literal_from_other by exact Hpm.
  rewrite H1, H2, H3, H4, H5, Hs. reflexivity.
Qed.

Lemma whitespace_splits_run_app p l :
  whitespace_splits_run l -> whitespace_splits_run (p ++ l).
Proof.
  intros (pre & ws & post & c & -> & Hc & Hne & Hws).
  exists (p ++ pre), ws, post, c. rewrite <- app_assoc. auto.
Qed.

Lemma remove_whitespace_cons ch l :
  remove_whitespace (ch :: l) =
  if isspace ch then remove_whitespace l else ch :: remove_whitespace l.
Proof. unfold remove_whitespace. simpl. destruct (isspace ch); reflexivity. Qed.

Lemma remove_whitespace_app l1 l2 :
  remove_whitespace (l1 ++ l2) = remove_whitespace l1 ++ remove_whitespace l2.
Proof. apply List.filter_app. Qed.

Lemma remove_whitespace_replicate n ch :
  isspace ch = false -> remove_whitespace (replicate n ch) = replicate n ch.
Proof.
  intros H. induction n as [|n IH]; [reflexivity|].
  simpl replicate. rewrite remove_whitespace_cons, H, IH. reflexivity.
Qed.

(** The first character left by [remove_whitespace] follows whitespace
    only. *)
Lemma head_remove_whitespace l c :
  head (remove_whitespace l) = Some c ->
  exists ws post, l = ws ++ c :: post /\ Forall (fun w => isspace w = true) ws.
Proof.
  induction l as [|x l IH]; [discriminate|].
  rewrite remove_whitespace_cons. destruct (isspace x) eqn:Hx; simpl.
  - intros H. destruct (IH H) as (ws & post & -> & Hws).
    exists (x :: ws), post. split; [reflexivity|]. constructor; assumption.
  - intros [= ->]. exists [], l. split; [reflexivity|constructor].
Qed.

Lemma execute_literal_from_remove_whitespace depth l :
  ~ whitespace_splits_run l ->
  forall po st,
  execute_literal_from l depth po st =
  execute_literal_from (remove_whitespace l) depth po st.
Proof.
  remember (length l) as n eqn:Hn. revert l Hn.
  induction n as [n IH] using lt_wf_ind.
  intros [|ch rest] Hn Hsplit po st; [reflexivity|]. simpl in Hn.
  assert (Hrest : forall po0 st0,
    execute_literal_from rest depth po0 st0 =
    execute_literal_from (remove_whitespace rest) depth po0 st0).
  { eapply IH; [|reflexivity|]; [lia|].
    intros H. apply Hsplit. apply (whitespace_splits_run_app [ch]), H. }
  destruct (isspace ch) eqn:Hs.
  { rewrite execute_literal_from_space by exact Hs.
    rewrite remove_whitespace_cons, Hs. apply Hrest. }
  rewrite remove_whitespace_cons, Hs.
  destruct (is_plus_minus ch) eqn:Hpm.
  - rewrite !execute_literal_from_run by exact Hpm.
    pose proof (run_split ch rest) as Hsp.
    set (k := run_count ch rest) in *. set (t := run_tail ch rest) in *.
    assert (Hhead : head (remove_whitespace t) <> Some ch).
    { intros H. apply head_remove_whitespace in H.
      destruct H as (ws & post & Ht & Hws).
      destruct ws as [|w ws].
      - pose proof (run_tail_head ch rest) as Hh. fold t in Hh.
        rewrite Ht in Hh. simpl in Hh. congruence.
      - apply Hsplit. exists (replicate k ch), (w :: ws), post, ch.
        split; [|split; [exact Hpm|split; [discriminate|exact Hws]]].
        rewrite Hsp, Ht.
        change (ch :: replicate k ch ++ (w :: ws) ++ ch :: post)
          with (replicate (S k) ch ++ (w :: ws) ++ ch :: post).
        rewrite replicate_S_end, <- app_assoc. reflexivity. }
    assert (Hf : remove_whitespace rest = replicate k ch ++ remove_whitespace t).
    { rewrite Hsp at 1. rewrite remove_whitespace_app.
      rewrite remove_whitespace_replicate by exact Hs. reflexivity. }
    rewrite Hf. destruct (run_of_replicate ch k _ Hhead) as [-> ->].
    apply bind_ext. intros _ st'.
    eapply IH; [|reflexivity|].
    + pose proof (run_tail_length ch rest). fold t in H. lia.
    + intros H. apply Hsplit. rewrite Hsp.
      apply (whitespace_splits_run_app (ch :: replicate k ch)), H.
  - rewrite !execute_literal_from_other by exact Hpm.
    repeat match goal with
    | |- context [if ?b then _ else _] => destruct b
    end; try apply Hrest; try reflexivity;
    apply bind_ext; intros; apply Hrest.
Qed.

Lemma skip_whitespace_app ws l :
  Forall (fun w => isspace w = true) ws ->
  skip_whitespace (ws ++ l) = skip_whitespace l.
Proof.
  induction 1 as [|w ws Hw _ IH]; [reflexivity|].
  simpl. rewrite Hw. exact IH.
Qed.

Lemma splits_run_complete l : whitespace_splits_run l -> splits_run l = true.
Proof.
  intros (pre & ws & post & c & -> & Hc & Hne & Hws).
  induction pre as [|x pre IH]; simpl.
  - rewrite Hc. destruct ws as [|w ws]; [congruence|].
    pose proof Hws as Hws'. apply Forall_cons in Hws'. destruct Hws' as [Hw _].
    unfold gap_before. rewrite <- app_comm_cons, Hw.
    rewrite app_comm_cons, skip_whitespace_app by exact Hws.
    simpl. rewrite (plus_minus_not_space c Hc), N.eqb_refl. reflexivity.
  - rewrite IH. apply orb_true_r.
Qed.

(** C7, as the code has it.  A whitespace character does nothing by
    itself, but it ends a run: a literal executes as the literal without
    its whitespace, with the same final state and the same override,
    when none of that whitespace separates two equal [+] or [-]
    characters. *)
Theorem whitespace_ignored_outside_runs
    (literal : list char) (depth : nat) (st : State) :
  ~ whitespace_splits_run literal ->
  execute_literal literal depth st =
  execute_literal (remove_whitespace literal) depth st.
Proof.
  intros H. unfold execute_literal.
  apply execute_literal_from_remove_whitespace, H.
Qed.

Lemma whitespace_ignored_outside_runs_witness :
  execute_literal (codes " ++ -  ^ + ") 3 (initial_state []) =
  execute_literal (remove_whitespace (codes " ++ -  ^ + ")) 3 (initial_state []).
Proof.
  apply (whitespace_ignored_outside_runs (codes " ++ -  ^ + ") 3
           (initial_state [])).
  intros H. apply splits_run_complete in H. vm_compute in H. discriminate H.
Defined.

(** C7 as stated fails where whitespace stands inside a run:
    [+ +] is two runs of one and adds 2, [++] is one run of two and
    adds 3. *)
Lemma whitespace_inside_run_changes_effect :
  remove_whitespace (codes "+ +") = codes "++" /\
  execute_literal (codes "+ +") 0 (initial_state []) <>
  execute_literal (remove_whitespace (codes "+ +")) 0 (initial_state []).
Proof.
  split; [reflexivity|]. vm_compute. discriminate.
Qed.

(** ** One block execution *)

Lemma execute_block_phases block depth st :
  execute_block block depth st =
  (override <- block_items block depth ;;
   count_instruction ;;
   apply_pointer_movement override) st.
Proof.
  destruct block as [[|] its]; simpl; [reflexivity|].
  unfold bind. destruct (read_cell st) as [[v|e] st1]; [|reflexivity].
  destruct (v =? 0); reflexivity.
Qed.

Lemma odd_mod_2 n : (n mod 2 =? 1) = Z.odd n.
Proof.
  rewrite Zmod_odd. destruct (Z.odd n); reflexivity.
Qed.

(** C2.  When the items of a block have run (or were skipped) and left
    the state [st1] and the override total [override], the block ends
    with exactly one more state change: the counter goes up by one and
    the pointer moves once, by [override] modulo 128 when that is not
    zero, and otherwise one cell to the left when the counter is now odd
    and one cell to the right when it is now even.  Nothing else
    changes. *)
Theorem pointer_moves_once_after_count
    (block : Block) (depth : nat) (st st1 : State) (override : Z) :
  block_items block depth st = (Ok override, st1) ->
  execute_block block depth st =
  (Ok tt,
   {| tape := tape st1;
      pointer :=
        if override =? 0
        then (if Z.odd (instruction_counter st1 + 1)
              then (pointer st1 - 1) mod 128
              else (pointer st1 + 1) mod 128)
        else (pointer st1 + override) mod 128;
      instruction_counter := instruction_counter st1 + 1;
      stdin := stdin st1;
      stdout := stdout st1 |}).
Proof.
  intros Hitems. rewrite execute_block_phases. unfold bind. rewrite Hitems.
  unfold count_instruction, apply_pointer_movement, modify. simpl.
  rewrite odd_mod_2.
  destruct (override =? 0); simpl; [|reflexivity].
  destruct (Z.odd (instruction_counter st1 + 1)); reflexivity.
Qed.

Lemma pointer_moves_once_after_count_witness :
  execute_block (mkBlock normal [Literal (codes "^^^ +")]) 0 (initial_state []) =
  (Ok tt,
   {| tape := <[0%nat := 1]> (replicate 128 0); pointer := 3;
      instruction_counter := 1; stdin := []; stdout := [] |}).
Proof.
  apply (pointer_moves_once_after_count
           (mkBlock normal [Literal (codes "^^^ +")]) 0 (initial_state [])
           (set_tape (<[0%nat := 1]> (replicate 128 0)) (initial_state [])) 3).
  reflexivity.
Defined.

(** C5.  A conditional block entered on a zero cell does not run its
    items: whatever they are, the tape, the input and the output stay as
    they were, the counter goes up by one and the pointer takes the
    default step for the new counter value. *)
Theorem skipped_conditional_only_counts_and_moves
    (its : list Item) (depth : nat) (st : State) (i : nat) :
  py_index (length (tape st)) (pointer st) = Some i ->
  tape st !! i = Some 0 ->
  execute_block (mkBlock conditional its) depth st =
  (Ok tt,
   {| tape := tape st;
      pointer :=
        if Z.odd (instruction_counter st + 1)
        then (pointer st - 1) mod 128
        else (pointer st + 1) mod 128;
      instruction_counter := instruction_counter st + 1;
      stdin := stdin st;
      stdout := stdout st |}).
Proof.
  intros Hi Hv. rewrite execute_block_phases.
  unfold block_items, bind, read_cell. rewrite Hi, Hv.
  unfold count_instruction, apply_pointer_movement, modify, ret. simpl.
  rewrite odd_mod_2.
  destruct (Z.odd (instruction_counter st + 1)); reflexivity.
Qed.

Lemma skipped_conditional_only_counts_and_moves_witness :
  execute_block
    (mkBlock conditional
       [Literal (codes "++++++++++ ."); Nested (mkBlock normal [])])
    0 (initial_state []) =
  (Ok tt,
   {| tape := replicate 128 0; pointer := 127; instruction_counter := 1;
      stdin := []; stdout := [] |}).
Proof.
  apply (skipped_conditional_only_counts_and_moves
           [Literal (codes "++++++++++ ."); Nested (mkBlock normal [])]
           0 (initial_state []) 0%nat).
  - reflexivity.
  - reflexivity.
Defined.

(** ** The override total of a block *)

Lemma literal_override_app l1 l2 depth :
  literal_override (l1 ++ l2) depth =
  literal_override l1 depth + literal_override l2 depth.
Proof. induction l1 as [|c l1 IH]; simpl; [reflexivity|rewrite IH; lia]. Qed.

Lemma literal_override_run ch n depth :
  is_plus_minus ch = true -> literal_override (replicate n ch) depth = 0.
Proof.
  intros Hpm. induction n as [|n IH]; simpl; [reflexivity|]. rewrite IH.
  unfold char_override, is_plus_minus in *.
  apply orb_true_iff in Hpm.
  destruct Hpm as [H|H]; apply is_char_eq in H; subst ch; reflexivity.
Qed.

Lemma bind_Ok {A B} (m : M A) (k : A -> M B) st b st' :
  (x <- m ;; k x) st = (Ok b, st') ->
  exists a st1, m st = (Ok a, st1) /\ k a st1 = (Ok b, st').
Proof.
  unfold bind. destruct (m st) as [[a|e] st1]; [eauto|discriminate].
Qed.

(** The returned override depends on the characters and the depth only,
    and the final state does not depend on the starting value of the
    accumulator. *)
Lemma execute_literal_from_override depth literal :
  forall po st r st',
  execute_literal_from literal depth po st = (Ok r, st') ->
  r = po + literal_override literal depth /\
  forall po', execute_literal_from literal depth po' st =
              (Ok (po' + literal_override literal depth), st').
Proof.
  remember (length literal) as n eqn:Hn. revert literal Hn.
  induction n as [n IH] using lt_wf_ind.
  intros [|ch rest] Hn po st r st' Hex.
  - injection Hex as <- <-. simpl. split; [lia|]. intros po'.
    unfold ret. f_equal. f_equal. lia.
  - simpl in Hn. destruct (is_plus_minus ch) eqn:Hpm.
    + rewrite execute_literal_from_run in Hex by exact Hpm.
      apply bind_Ok in Hex. destruct Hex as ([] & st1 & Hrun & Hex).
      assert (Hlt : (length (run_tail ch rest) < n)%nat)
        by (pose proof (run_tail_length ch rest); lia).
      apply (IH _ Hlt _ eq_refl) in Hex.
      destruct Hex as [Hr Hany].
      assert (Hov : literal_override (ch :: rest) depth =
                    literal_override (run_tail ch rest) depth).
      { change (ch :: rest) with (replicate 1 ch ++ rest).
        rewrite (run_split ch rest) at 1.
        rewrite !literal_override_app, !literal_override_run by exact Hpm.
        lia. }
      rewrite Hov. split; [exact Hr|]. intros po'.
      rewrite execute_literal_from_run by exact Hpm.
      unfold bind. rewrite Hrun. apply Hany.
    + rewrite execute_literal_from_other in Hex by exact Hpm.
      assert (Hrec : forall po0 st0 r0 st0',
        execute_literal_from rest depth po0 st0 = (Ok r0, st0') ->
        r0 = po0 + literal_override rest depth /\
        forall po', execute_literal_from rest depth po' st0 =
                    (Ok (po' + literal_override rest depth), st0')).
      { assert (Hlt : (length rest < n)%nat) by lia.
        intros. eapply (IH _ Hlt _ eq_refl); eassumption. }
      unfold is_plus_minus in Hpm. apply orb_false_iff in Hpm.
      destruct Hpm as [Hp Hm].
      simpl literal_override. unfold char_override.
      destruct (is_char "^" ch) eqn:H1; simpl in Hex.
      { apply Hrec in Hex. destruct Hex as [-> Hany].
        split; [destruct (Nat.even depth); lia|]. intros po'.
        rewrite execute_literal_from_other
          by (unfold is_plus_minus; rewrite Hp, Hm; reflexivity).
        rewrite H1. simpl. rewrite Hany. f_equal. f_equal.
        destruct (Nat.even depth); lia. }
      destruct (is_char "v" ch) eqn:H2; simpl in Hex.
      { apply Hrec in Hex. destruct Hex as [-> Hany].
        split; [destruct (Nat.even depth); lia|]. intros po'.
        rewrite execute_literal_from_other
          by (unfold is_plus_minus; rewrite Hp, Hm; reflexivity).
        rewrite H1, H2. simpl. rewrite Hany. f_equal. f_equal.
        destruct (Nat.even depth); lia. }
      assert (Hgo : forall po', execute_literal_from (ch :: rest) depth po' st =
        (if is_char "." ch then
           op_output ;; execute_literal_from rest depth po'
         else if is_char "," ch then
           op_input ;; execute_literal_from rest depth po'
         else if is_char "#" ch then
           write_cell 0 ;; execute_literal_from rest depth po'
         else if isspace ch then execute_literal_from rest depth po'
         else raise (UnknownOperation ch depth)) st).
      { intros po'. rewrite execute_literal_from_other
          by (unfold is_plus_minus; rewrite Hp, Hm; reflexivity).
        rewrite H1, H2. reflexivity. }
      destruct (is_char "." ch);
        [|destruct (is_char "," ch);
          [|destruct (is_char "#" ch); [|destruct (isspace ch)]]];
        try discriminate Hex;
        try (apply bind_Ok in Hex; destruct Hex as ([] & st1 & Hop & Hex));
        apply Hrec in Hex; destruct Hex as [-> Hany];
        (split; [lia|]); intros po'; rewrite Hgo;
        try (unfold bind; rewrite Hop); rewrite Hany;
        f_equal; f_equal; lia.
Qed.

Lemma execute_items_override depth its :
  forall acc st r st',
  execute_items execute_block its depth acc st = (Ok r, st') ->
  r = acc + direct_override its depth /\
  forall acc', execute_items execute_block its depth acc' st =
               (Ok (acc' + direct_override its depth), st').
Proof.
  induction its as [|[literal|b] more IH]; intros acc st r st' Hex; simpl in *.
  - injection Hex as <- <-. split; [lia|]. intros acc'. unfold ret.
    f_equal. f_equal. lia.
  - apply bind_Ok in Hex. destruct Hex as (ov & st1 & Hlit & Hex).
    apply execute_literal_from_override in Hlit. destruct Hlit as [-> Hlit].
    apply IH in Hex. destruct Hex as [-> Hany]. split; [lia|].
    intros acc'. unfold bind, execute_literal. rewrite Hlit, Hany.
    f_equal. f_equal. lia.
  - apply bind_Ok in Hex. destruct Hex as ([] & st1 & Hb & Hex).
    apply IH in Hex. destruct Hex as [-> Hany]. split; [reflexivity|].
    intros acc'. unfold bind. rewrite Hb. apply Hany.
Qed.
Lemma read_cell_state st r st' : read_cell st = (r, st') -> st' = st.
Proof.
  unfold read_cell. destruct (py_index _ _); [destruct (_ !! _)|];
    intros [= _ <-]; reflexivity.
Qed.

Lemma block_items_runs bt its depth st :
  body_runs bt st = true ->
  block_items (mkBlock bt its) depth st =
  execute_items execute_block its depth 0 st.
Proof.
  destruct bt; simpl; [reflexivity|]. unfold bind.
  destruct (read_cell st) as [[v|e] st1] eqn:Hr; [|discriminate].
  apply read_cell_state in Hr. subst st1.
  destruct (v =? 0); [discriminate|reflexivity].
Qed.

(** C6.  When the items of a block run to their end, the override total
    handed to the pointer movement of that block is the sum of the
    overrides of the literals that are its own items: what a nested
    block contains adds nothing to it.  Started with any other value in
    the accumulator the loop ends in the same state, so the nested
    executions, which change that state, take nothing from the
    accumulator either. *)
Theorem override_total_is_sum_of_direct_literals
    (bt : BlockType) (its : list Item) (depth : nat)
    (st st1 : State) (override : Z) :
  body_runs bt st = true ->
  execute_items execute_block its depth 0 st = (Ok override, st1) ->
  override = direct_override its depth /\
  (forall acc, execute_items execute_block its depth acc st =
               (Ok (acc + override), st1)) /\
  execute_block (mkBlock bt its) depth st =
  (count_instruction ;;
   apply_pointer_movement (direct_override its depth)) st1.
Proof.
  intros Hruns Hitems.
  destruct (execute_items_override depth its 0 st override st1 Hitems)
    as [Hov Hany].
  simpl in Hov. subst override. repeat split.
  - exact Hany.
  - rewrite execute_block_phases. unfold bind at 1.
    rewrite block_items_runs by exact Hruns. rewrite Hitems. reflexivity.
Qed.

Lemma override_total_is_sum_of_direct_literals_witness :
  let its := [Literal (codes " ^ "); Nested (mkBlock normal [Literal (codes "^^^^^")])] in
  let st1 := set_instruction_counter 1 (set_pointer 123 (initial_state [])) in
  1 = direct_override its 0 /\
  (forall acc, execute_items execute_block its 0 acc (initial_state []) =
               (Ok (acc + 1), st1)) /\
  execute_block (mkBlock normal its) 0 (initial_state []) =
  (count_instruction ;; apply_pointer_movement (direct_override its 0)) st1.
Proof.
  apply (override_total_is_sum_of_direct_literals normal
           [Literal (codes " ^ "); Nested (mkBlock normal [Literal (codes "^^^^^")])]
           0 (initial_state [])
           (set_instruction_counter 1 (set_pointer 123 (initial_state []))) 1).
  - reflexivity.
  - reflexivity.
Defined.

(** ** What a literal can change *)

Lemma preserves_bind {A B} P (m : M A) (k : A -> M B) :
  preserves P m -> (forall a, preserves P (k a)) -> preserves P (x <- m ;; k x).
Proof.
  intros Hm Hk st HP. unfold bind. specialize (Hm st HP).
  destruct (m st) as [[a|e] st1]; simpl in *; [apply Hk, Hm|exact Hm].
Qed.

Lemma preserves_ret {A} P (a : A) : preserves P (ret a).
Proof. intros st HP. exact HP. Qed.

Lemma preserves_raise {A} P e : preserves P (@raise A e).
Proof. intros st HP. exact HP. Qed.

Lemma preserves_read_cell P : preserves P read_cell.
Proof.
  intros st HP. destruct (read_cell st) as [r st1] eqn:Hr.
  apply read_cell_state in Hr. subst st1. exact HP.
Qed.

Section LiteralStable.
Variable P : State -> Prop.
Hypothesis HP : literal_stable P.

Lemma preserves_write_cell v : 0 <= v < 256 -> preserves P (write_cell v).
Proof. intros Hv st Hst. apply (stable_write P HP), Hst. exact Hv. Qed.

Lemma preserves_apply_run ch depth n : preserves P (apply_run ch depth n).
Proof.
  apply preserves_bind; [apply preserves_read_cell|]. intros v.
  apply preserves_write_cell. apply Z.mod_pos_bound. lia.
Qed.

Lemma preserves_op_output : preserves P op_output.
Proof.
  apply preserves_bind; [apply preserves_read_cell|]. intros v.
  apply preserves_bind; [intros st Hst; exact Hst|]. intros st0.
  destruct (_ || _); [apply preserves_raise|].
  intros st Hst. apply (stable_stdout P HP), Hst.
Qed.

Lemma preserves_op_input : preserves P op_input.
Proof.
  apply preserves_bind; [intros st Hst; exact Hst|]. intros st0.
  destruct (stdin st0) as [|inp more]; [apply preserves_raise|].
  apply preserves_bind.
  - intros st Hst. apply (stable_stdin P HP), Hst.
  - intros _. apply preserves_write_cell. apply Z.mod_pos_bound. lia.
Qed.

Lemma preserves_execute_literal_from depth literal :
  forall po, preserves P (execute_literal_from literal depth po).
Proof.
  remember (length literal) as n eqn:Hn. revert literal Hn.
  induction n as [n IH] using lt_wf_ind.
  intros [|ch rest] Hn po; [apply preserves_ret|]. simpl in Hn.
  destruct (is_plus_minus ch) eqn:Hpm.
  - rewrite execute_literal_from_run by exact Hpm.
    apply preserves_bind; [apply preserves_apply_run|]. intros _.
    assert (Hlt : (length (run_tail ch rest) < n)%nat)
      by (pose proof (run_tail_length ch rest); lia).
    apply (IH _ Hlt _ eq_refl).
  - rewrite execute_literal_from_other by exact Hpm.
    assert (Hlt : (length rest < n)%nat) by lia.
    pose proof (IH _ Hlt _ eq_refl) as Hrec.
    repeat match goal with
    | |- context [if ?b then _ else _] => destruct b
    end;
    try apply Hrec; try apply preserves_raise;
    (apply preserves_bind; [|intros; apply Hrec]);
    [apply preserves_op_output | apply preserves_op_input
    | apply preserves_write_cell; lia].
Qed.
End LiteralStable.

(** ** The machine invariant *)

Lemma initial_state_invariant input : machine_invariant (initial_state input).
Proof.
  unfold machine_invariant, initial_state. cbn [tape pointer].
  split; [apply length_replicate|].
  split; [apply Forall_replicate; lia|lia].
Qed.

Lemma machine_invariant_stable : literal_stable machine_invariant.
Proof.
  split.
  - intros st v Hv (Hlen & Hcells & Hp). unfold write_cell.
    destruct (py_index _ _) as [i|]; simpl; [|split; [|split]; assumption].
    split; [|split]; simpl.
    + rewrite length_insert. exact Hlen.
    + apply Forall_insert; [exact Hcells|lia].
    + exact Hp.
  - intros st i H. exact H.
  - intros st o H. exact H.
Qed.

(** Under the invariant the cell under the pointer exists and holds a
    byte: reading it never raises. *)
Lemma read_cell_in_range st :
  machine_invariant st ->
  exists v, read_cell st = (Ok v, st) /\ 0 <= v <= 255.
Proof.
  intros (Hlen & Hcells & Hp). unfold read_cell, py_index. rewrite Hlen.
  destruct (Z.ltb_spec (pointer st) 0); [lia|].
  destruct (Z.leb_spec 0 (pointer st)); [|lia].
  destruct (Z.ltb_spec (pointer st) (Z.of_nat 128)); [|lia]. simpl.
  destruct (tape st !! Z.to_nat (pointer st)) as [v|] eqn:Hv.
  - exists v. split; [reflexivity|].
    rewrite Forall_lookup in Hcells. exact (Hcells _ _ Hv).
  - apply lookup_ge_None in Hv. lia.
Qed.

Lemma preserves_count_instruction :
  preserves machine_invariant count_instruction.
Proof. intros st H. exact H. Qed.

Lemma preserves_apply_pointer_movement override :
  preserves machine_invariant (apply_pointer_movement override).
Proof.
  intros st (Hlen & Hcells & Hp). unfold apply_pointer_movement, modify.
  simpl.
  assert (Hmod : forall z, 0 <= z mod 128 <= 127)
    by (intros z; pose proof (Z.mod_pos_bound z 128); lia).
  destruct (negb (override =? 0)); [|destruct (_ =? 1)];
    repeat split; simpl; auto; apply Hmod.
Qed.

Lemma preserves_execute_block :
  forall block depth, preserves machine_invariant (execute_block block depth).
Proof.
  intros block.
  apply (Block_tree_ind
    (fun block => forall depth,
       preserves machine_invariant (execute_block block depth))
    (fun its => forall depth acc,
       preserves machine_invariant (execute_items execute_block its depth acc))).
  - intros bt its Hits depth.
    assert (Hbody : preserves machine_invariant
      (ov <- execute_items execute_block its depth 0 ;;
       count_instruction ;; apply_pointer_movement ov)).
    { apply preserves_bind; [apply Hits|]. intros ov.
      apply preserves_bind; [apply preserves_count_instruction|]. intros _.
      apply preserves_apply_pointer_movement. }
    destruct bt; simpl; [exact Hbody|].
    apply preserves_bind; [apply preserves_read_cell|]. intros v.
    destruct (v =? 0); [|exact Hbody].
    apply preserves_bind; [apply preserves_count_instruction|]. intros _.
    apply preserves_apply_pointer_movement.
  - intros depth acc. apply preserves_ret.
  - intros literal more IH depth acc. simpl.
    apply preserves_bind; [|intros; apply IH].
    apply preserves_execute_literal_from, machine_invariant_stable.
  - intros b more Hb IH depth acc. simpl.
    apply preserves_bind; [apply Hb|intros; apply IH].
Qed.

Lemma preserves_run blocks : preserves machine_invariant (run blocks).
Proof.
  induction blocks as [|b more IH]; simpl; [apply preserves_ret|].
  apply preserves_bind; [apply preserves_execute_block|intros; exact IH].
Qed.

(** C3.  The invariant holds in the initial state for every input
    stream, and every operation of the interpreter keeps it, whether the
    operation returns or raises: a pointer movement with any override,
    however large, a literal, a block at any depth, and a whole program.
    So every cell stays in [0,255] and the pointer in [0,127] throughout
    a run, and a read of the cell under the pointer finds a byte. *)
Theorem cells_and_pointer_stay_in_range (input : list char) (st : State) :
  machine_invariant st ->
  machine_invariant (initial_state input) /\
  (forall blocks, machine_invariant (snd (run blocks (initial_state input)))) /\
  (exists v, read_cell st = (Ok v, st) /\ 0 <= v <= 255) /\
  (forall override, machine_invariant (snd (apply_pointer_movement override st))) /\
  (forall literal depth,
     machine_invariant (snd (execute_literal literal depth st))) /\
  (forall block depth, machine_invariant (snd (execute_block block depth st))) /\
  (forall blocks, machine_invariant (snd (run blocks st))).
Proof.
  intros Hst. split; [apply initial_state_invariant|]. split.
  { intros blocks. apply preserves_run, initial_state_invariant. }
  split; [apply read_cell_in_range, Hst|].
  split; [intros; apply preserves_apply_pointer_movement, Hst|].
  split.
  { intros literal depth.
    apply (preserves_execute_literal_from _ machine_invariant_stable
             depth literal 0 st Hst). }
  split; [intros; apply preserves_execute_block, Hst|].
  intros; apply preserves_run, Hst.
Qed.

Lemma cells_and_pointer_stay_in_range_witness :
  pointer (snd (apply_pointer_movement (-1000)
                  (set_pointer 5 (initial_state (codes "a"))))) = 29 /\
  machine_invariant
    (snd (apply_pointer_movement (-1000)
            (set_pointer 5 (initial_state (codes "a"))))).
Proof.
  split; [reflexivity|].
  apply (cells_and_pointer_stay_in_range (codes "a")
           (set_pointer 5 (initial_state (codes "a")))).
  destruct (initial_state_invariant (codes "a")) as (Hlen & Hcells & _).
  split; [exact Hlen|]. split; [exact Hcells|]. simpl. lia.
Defined.

(** ** The instruction counter *)

Lemma counter_stable n :
  literal_stable (fun st => instruction_counter st = n).
Proof.
  split.
  - intros st v _ H. unfold write_cell.
    destruct (py_index _ _); simpl; exact H.
  - intros st i H. exact H.
  - intros st o H. exact H.
Qed.

Lemma execute_literal_counter literal depth st :
  instruction_counter (snd (execute_literal literal depth st)) =
  instruction_counter st.
Proof.
  apply (preserves_execute_literal_from _
           (counter_stable (instruction_counter st)) depth literal 0 st).
  reflexivity.
Qed.

Lemma execute_block_result block depth st :
  execute_block block depth st =
  match block_items block depth st with
  | (Ok override, st1) => (Ok tt, block_end override st1)
  | (Raise e, st1) => (Raise e, st1)
  end.
Proof.
  rewrite execute_block_phases. unfold bind at 1.
  destruct (block_items block depth st) as [[ov|e] st1]; reflexivity.
Qed.

Lemma block_end_counter override st :
  instruction_counter (block_end override st) = instruction_counter st + 1.
Proof.
  unfold block_end, bind, count_instruction, apply_pointer_movement, modify.
  simpl.
  destruct (negb (override =? 0)); [|destruct (_ =? 1)]; reflexivity.
Qed.

(** One block execution: the counter never goes down, and when the
    block returns it has gone up by the number of blocks visited. *)
Lemma execute_block_counter block :
  forall depth st,
  instruction_counter st <= instruction_counter (snd (execute_block block depth st)) /\
  (fst (execute_block block depth st) = Ok tt ->
   instruction_counter (snd (execute_block block depth st)) =
   instruction_counter st + Z.of_nat (visited_block block depth st)).
Proof.
  apply (Block_tree_ind
    (fun block => forall depth st,
       instruction_counter st
         <= instruction_counter (snd (execute_block block depth st)) /\
       (fst (execute_block block depth st) = Ok tt ->
        instruction_counter (snd (execute_block block depth st)) =
        instruction_counter st + Z.of_nat (visited_block block depth st)))
    (fun its => forall depth acc st,
       instruction_counter st
         <= instruction_counter
              (snd (execute_items execute_block its depth acc st)) /\
       (forall ov,
        fst (execute_items execute_block its depth acc st) = Ok ov ->
        instruction_counter
          (snd (execute_items execute_block its depth acc st)) =
        instruction_counter st
        + Z.of_nat (visited_items visited_block its depth st)))).
  - intros bt its Hits depth st.
    rewrite execute_block_result. simpl visited_block.
    destruct (body_runs bt st) eqn:Hruns.
    + rewrite block_items_runs by exact Hruns.
      destruct (Hits depth 0 st) as [Hle Heq].
      destruct (execute_items execute_block its depth 0 st) as [[ov|e] st1];
        simpl in *; [|split; [exact Hle|discriminate]].
      rewrite block_end_counter. split; [lia|].
      intros _. rewrite (Heq ov eq_refl). lia.
    + destruct bt; [discriminate|]. simpl in *. unfold bind.
      destruct (read_cell st) as [[v|e] st1] eqn:Hr;
        pose proof (read_cell_state _ _ _ Hr); subst st1;
        [|simpl; split; [lia|discriminate]].
      destruct (v =? 0); [|discriminate]. unfold ret. simpl.
      rewrite block_end_counter. split; [lia|]. intros _. lia.
  - intros depth acc st. simpl. split; [lia|]. intros _ _. lia.
  - intros literal more IH depth acc st. simpl. unfold bind.
    pose proof (execute_literal_counter literal depth st) as Hc.
    destruct (execute_literal literal depth st) as [[ov|e] st1]; simpl in *.
    + rewrite <- Hc. apply IH.
    + split; [lia|discriminate].
  - intros b more Hb IH depth acc st. simpl. unfold bind.
    destruct (Hb (depth + 1)%nat st) as [Hle Heq].
    destruct (execute_block b (depth + 1) st) as [[[]|e] st1]; simpl in *.
    + destruct (IH depth acc st1) as [Hle' Heq']. split; [lia|].
      intros ov Hov. rewrite (Heq' ov Hov), (Heq eq_refl). lia.
    + split; [exact Hle|discriminate].
Qed.

(** C4.  Over a run, the counter never goes down; when the run
    completes, it has gone up by exactly the number of blocks visited,
    one for each, nested or not, skipped or not. *)
Theorem counter_counts_visited_blocks
    (blocks : list Block) (st st' : State) (r : outcome unit) :
  run blocks st = (r, st') ->
  instruction_counter st <= instruction_counter st' /\
  (r = Ok tt ->
   instruction_counter st' =
   instruction_counter st + Z.of_nat (visited_run blocks st)).
Proof.
  revert st st' r. induction blocks as [|b more IH]; intros st st' r Hrun.
  - injection Hrun as <- <-. simpl. split; [lia|]. intros _. lia.
  - simpl in Hrun. unfold bind in Hrun. simpl visited_run.
    destruct (execute_block_counter b 0%nat st) as [Hle Heq].
    destruct (execute_block b 0 st) as [[[]|e] st1]; simpl in *.
    + destruct (IH _ _ _ Hrun) as [Hle' Heq']. split; [lia|].
      intros Hr. rewrite (Heq' Hr), (Heq eq_refl). lia.
    + injection Hrun as <- <-. split; [exact Hle|discriminate].
Qed.

Lemma counter_counts_visited_blocks_witness :
  let blocks :=
    [mkBlock conditional [Nested (mkBlock normal [])];
     mkBlock normal [Nested (mkBlock normal []); Literal (codes "+")]] in
  let st' := snd (run blocks (initial_state [])) in
  0 <= instruction_counter st' /\
  (Ok tt = Ok tt -> instruction_counter st' = 0 + Z.of_nat 3).
Proof.
  apply (counter_counts_visited_blocks
           [mkBlock conditional [Nested (mkBlock normal [])];
            mkBlock normal [Nested (mkBlock normal []); Literal (codes "+")]]
           (initial_state [])
           (snd (run
              [mkBlock conditional [Nested (mkBlock normal [])];
               mkBlock normal [Nested (mkBlock normal []); Literal (codes "+")]]
              (initial_state [])))
           (Ok tt)).
  reflexivity.
Defined.

(** The count is of blocks visited, not of blocks written: a skipped
    conditional hides the blocks inside it. *)
Lemma visited_block_le_nodes block :
  forall depth st, (visited_block block depth st <= block_nodes block)%nat.
Proof.
  apply (Block_tree_ind
    (fun block => forall depth st,
       (visited_block block depth st <= block_nodes block)%nat)
    (fun its => forall depth st,
       (visited_items visited_block its depth st
        <= items_nodes block_nodes its)%nat)).
  - intros bt its Hits depth st. simpl.
    destruct (body_runs bt st); [specialize (Hits depth st)|]; lia.
  - intros depth st. simpl. lia.
  - intros literal more IH depth st. simpl.
    destruct (execute_literal literal depth st) as [[ov|e] st1];
      [apply IH|lia].
  - intros b more Hb IH depth st. simpl.
    specialize (Hb (depth + 1)%nat st).
    destruct (execute_block b (depth + 1) st) as [[[]|e] st1];
      [specialize (IH depth st1)|]; lia.
Qed.

Example skipped_blocks_are_not_counted :
  let block := mkBlock conditional [Nested (mkBlock normal [])] in
  block_nodes block = 2%nat /\
  run [block] (initial_state []) =
  (Ok tt, set_instruction_counter 1 (set_pointer 127 (initial_state []))).
Proof. split; reflexivity. Qed.

(** ** The parser *)

Lemma slice2_length source index token :
  length token = 2%nat -> slice2 source index = token ->
  (index + 2 <= length source)%nat.
Proof.
  intros Hlen <-. unfold slice2 in Hlen.
  rewrite length_take, length_drop in Hlen. lia.
Qed.

Lemma parse_functions_ok source fuel :
  (forall index,
     parse_result_ok source index 4
       (fuel = 0 \/ fuel < length source - index)%nat
       (parse_block fuel source index)) /\
  (forall block_type closing_token index its literal_buffer,
     length closing_token = 2%nat -> (index <= length source)%nat ->
     parse_result_ok source index 2 (fuel <= length source - index)%nat
       (parse_block_loop fuel source block_type closing_token index its
          literal_buffer)).
Proof.
  induction fuel as [|fuel [IHb IHl]].
  - split.
    + intros index. simpl. lia.
    + intros. simpl. lia.
  - assert (Hloop : forall block_type closing_token index its literal_buffer,
      length closing_token = 2%nat -> (index <= length source)%nat ->
      parse_result_ok source index 2 (S fuel <= length source - index)%nat
        (parse_block_loop (S fuel) source block_type closing_token index its
           literal_buffer)).
    { intros bt ct index its buf Hct Hidx. simpl.
      destruct (source !! index) as [c|] eqn:Hc.
      2:{ simpl. apply lookup_ge_None in Hc. lia. }
      apply lookup_lt_Some in Hc.
      unfold list_char_eqb. destruct (bool_decide_reflect (slice2 source index = ct)) as [Hs|Hs].
      { simpl. pose proof (slice2_length _ _ _ Hct Hs). lia. }
      destruct (is_char "(" c && _).
      - specialize (IHb index).
        destruct (parse_block fuel source index) as [[nested index']|e|];
          simpl in IHb.
        + assert (Hi : (index' <= length source)%nat) by lia.
          specialize (IHl bt ct index' (flush its buf ++ [Nested nested]) []
                        Hct Hi).
          destruct (parse_block_loop fuel source bt ct index' _ _)
            as [[b i2]|e|]; simpl in *; [lia| |lia].
          destruct e; auto.
        + simpl. destruct e; auto.
        + simpl. lia.
      - assert (Hi : (index + 1 <= length source)%nat) by lia.
        specialize (IHl bt ct (index + 1)%nat its (buf ++ [c]) Hct Hi).
        destruct (parse_block_loop fuel source bt ct (index + 1) _ _)
          as [[b i2]|e|]; simpl in *; [lia| |lia].
        destruct e; auto. }
    split; [|exact Hloop].
    intros index. simpl.
    destruct (source !! index) as [c0|] eqn:Hc0; [|exact I].
    destruct (negb (is_char "(" c0)); [exact I|].
    destruct (source !! (index + 1)%nat) as [c1|] eqn:Hc1; [|exact I].
    apply lookup_lt_Some in Hc1.
    assert (Hi : (index + 1 + 1 <= length source)%nat) by lia.
    destruct (is_char "<" c1).
    { specialize (IHl normal (codes ">)") (index + 1 + 1)%nat [] []
                    eq_refl Hi).
      destruct (parse_block_loop fuel source normal _ _ _ _)
        as [[b i2]|e|]; simpl in *; [lia| |lia].
      destruct e; auto. }
    destruct (is_char "?" c1); [|exact I].
    specialize (IHl conditional (codes "?)") (index + 1 + 1)%nat [] []
                  eq_refl Hi).
    destruct (parse_block_loop fuel source conditional _ _ _ _)
      as [[b i2]|e|]; simpl in *; [lia| |lia].
    destruct e; auto.
Qed.

Lemma parse_program_from_ok source fuel :
  forall index blocks,
  (length source - index < fuel)%nat ->
  match parse_program_from fuel source index blocks with
  | Parsed _ => True
  | ParseFail (MissingClosingToken _ i) => i = length source
  | ParseFail _ => True
  | OutOfFuel => False
  end.
Proof.
  induction fuel as [|fuel IH]; intros index blocks Hfuel; [lia|].
  simpl. destruct (source !! index) as [c|] eqn:Hc; [|exact I].
  apply lookup_lt_Some in Hc.
  destruct (isspace c); [apply IH; lia|].
  destruct (is_char "(" c); [|exact I].
  destruct (parse_functions_ok source fuel) as [Hb _]. specialize (Hb index).
  destruct (parse_block fuel source index) as [[block index']|e|];
    simpl in Hb.
  - apply IH. lia.
  - destruct e; auto.
  - lia.
Qed.

(** The fuel handed out by [parse_program] is never used up: the parser
    returns a list of blocks or raises. *)
Lemma parse_program_total source : parse_program source <> OutOfFuel.
Proof.
  unfold parse_program.
  pose proof (parse_program_from_ok source (S (length source)) 0 []) as H.
  destruct (parse_program_from _ _ _ _); [discriminate|discriminate|].
  exfalso. apply H. lia.
Qed.

(** The index in a missing-closing-token error is always the length of
    the source, where no block starts. *)
Lemma missing_closing_token_index source token i :
  parse_program source = ParseFail (MissingClosingToken token i) ->
  i = length source.
Proof.
  unfold parse_program. intros H.
  pose proof (parse_program_from_ok source (S (length source)) 0 []) as Hok.
  rewrite H in Hok. apply Hok. lia.
Qed.

(** C8, on the code.  The block of [(< +] starts at index 0 and is never
    closed; the error raised carries index 4, the length of the source,
    which is where the scan stood when the input ended. *)
Theorem unterminated_block_reports_end_of_input :
  parse_program (codes "(< +") =
  ParseFail (MissingClosingToken (codes ">)") 4) /\
  codes "(< +" !! 0%nat = Some (ord "(") /\
  codes "(< +" !! 4%nat = None.
Proof. repeat split. Qed.

(** ** The empty program *)

Lemma parse_program_from_whitespace source :
  Forall (fun c => isspace c = true) source ->
  forall fuel index blocks,
  (length source - index < fuel)%nat ->
  parse_program_from fuel source index blocks = Parsed blocks.
Proof.
  intros Hws. induction fuel as [|fuel IH]; intros index blocks Hfuel; [lia|].
  simpl. destruct (source !! index) as [c|] eqn:Hc; [|reflexivity].
  rewrite Forall_lookup in Hws. rewrite (Hws _ _ Hc).
  apply lookup_lt_Some in Hc. apply IH. lia.
Qed.

(** C10.  A source text of whitespace only, the empty one included,
    parses to the empty list of blocks; running that program returns
    without an exception and leaves the machine as it was initialised:
    128 cells of zero, pointer 0, counter 0, nothing read and nothing
    written. *)
Theorem whitespace_only_source_is_empty_program
    (source input : list char) :
  Forall (fun c => isspace c = true) source ->
  parse_program source = Parsed [] /\
  run [] (initial_state input) = (Ok tt, initial_state input) /\
  tape (initial_state input) = replicate 128 0 /\
  pointer (initial_state input) = 0 /\
  instruction_counter (initial_state input) = 0 /\
  stdin (initial_state input) = input /\
  stdout (initial_state input) = [].
Proof.
  intros Hws. split.
  - unfold parse_program. apply parse_program_from_whitespace; [exact Hws|lia].
  - repeat split.
Qed.

Lemma whitespace_only_source_is_empty_program_witness :
  parse_program [32; 9; 10; 13; 160; 8195; 12288]%N = Parsed [] /\
  run [] (initial_state (codes "x")) = (Ok tt, initial_state (codes "x")).
Proof.
  destruct (whitespace_only_source_is_empty_program
              [32; 9; 10; 13; 160; 8195; 12288]%N (codes "x")) as (Hp & Hr & _).
  - repeat constructor.
  - split; [exact Hp|exact Hr].
Defined.

(** ** Comment stripping *)

Lemma find_spec ch line :
  (find ch line = -1 /\ ch ∉ line) \/
  (0 <= find ch line /\
   (ch ∉ take (Z.to_nat (find ch line)) line) /\
   head (drop (Z.to_nat (find ch line)) line) = Some ch).
Proof.
  induction line as [|c line IH]; simpl.
  - left. split; [reflexivity|]. apply not_elem_of_nil.
  - destruct (N.eqb_spec c ch) as [->|Hne].
    + right. simpl. split; [lia|]. split; [apply not_elem_of_nil|reflexivity].
    + destruct IH as [[Hf Hnot]|(Hpos & Hnot & Hhead)].
      * left. rewrite Hf. simpl. split; [reflexivity|].
        rewrite not_elem_of_cons. split; [congruence|exact Hnot].
      * right. destruct (Z.eqb_spec (find ch line) (-1)); [lia|].
        replace (Z.to_nat (find ch line + 1)) with (S (Z.to_nat (find ch line)))
          by lia.
        simpl. split; [lia|]. split; [|exact Hhead].
        rewrite not_elem_of_cons. split; [congruence|exact Hnot].
Qed.

Lemma strip_line_cut line : comment_cut line (strip_line line).
Proof.
  unfold strip_line, comment_cut.
  destruct (find_spec (ord ";") line) as [[Hf Hnot]|(Hpos & Hnot & Hhead)].
  - rewrite Hf. simpl. exists []. rewrite app_nil_r. auto.
  - destruct (Z.eqb_spec (find (ord ";") line) (-1)); [lia|]. simpl.
    exists (drop (Z.to_nat (find (ord ";") line)) line).
    rewrite take_drop. auto.
Qed.

Lemma strip_line_unchanged line : ord ";" ∉ line -> strip_line line = line.
Proof.
  intros Hnot. unfold strip_line.
  destruct (find_spec (ord ";") line) as [[Hf _]|(Hpos & _ & Hhead)].
  - rewrite Hf. reflexivity.
  - exfalso. apply Hnot.
    destruct (drop _ line) as [|c rest] eqn:Hd; [discriminate|].
    injection Hhead as ->.
    rewrite <- (take_drop (Z.to_nat (find (ord ";") line)) line), Hd.
    rewrite elem_of_app. right. apply elem_of_cons. left. reflexivity.
Qed.

Lemma splitlines_from_no_linebreak s :
  forall line, no_linebreak line ->
  Forall no_linebreak (splitlines_from s line).
Proof.
  remember (length s) as n eqn:Hn. revert s Hn.
  induction n as [n IH] using lt_wf_ind.
  intros [|c s'] Hn line Hline; simpl in *.
  - destruct line; [constructor|]. constructor; [exact Hline|constructor].
  - assert (Hnil : no_linebreak []) by constructor.
    assert (Hs' : forall l, no_linebreak l ->
                  Forall no_linebreak (splitlines_from s' l)).
    { assert (Hlt : (length s' < n)%nat) by lia.
      apply (IH _ Hlt _ eq_refl). }
    destruct (is_linebreak c) eqn:Hc.
    + destruct (N.eqb c 13); [|constructor; auto].
      destruct s' as [|c' s'']; [constructor; auto|].
      destruct (N.eqb c' 10); [|constructor; auto].
      constructor; [exact Hline|].
      assert (Hlt : (length s'' < n)%nat) by (simpl in Hn; lia).
      apply (IH _ Hlt _ eq_refl), Hnil.
    + apply Hs'. apply Forall_app. split; [exact Hline|].
      constructor; [exact Hc|constructor].
Qed.

Lemma strip_line_no_linebreak line :
  no_linebreak line -> no_linebreak (strip_line line).
Proof.
  intros H. unfold strip_line. destruct (negb _); [|exact H].
  apply Forall_take, H.
Qed.




Lemma splitlines_from_no_break x :
  no_linebreak x ->
  forall rest line,
  splitlines_from (x ++ rest) line = splitlines_from rest (line ++ x).
Proof.
  induction 1 as [|c x Hc _ IH]; intros rest line.
  - rewrite app_nil_r. reflexivity.
  - simpl. rewrite Hc, IH, <- app_assoc. reflexivity.
Qed.






Example strip_comments_example :
  strip_comments (codes "(< + ; add one
; a comment line
 . >)") = codes "(< + 

 . >)".
Proof. reflexivity. Qed.

(** Line terminators are not kept as they were: each becomes one
    newline character, and the last line gets none. *)
Example strip_comments_terminators :
  strip_comments [97; 13; 10; 98; 10]%N = [97; 10; 98]%N.
Proof. reflexivity. Qed.

(** ** Whole programs *)

(** Parsing a source text and running the blocks on a fresh machine, as
    [main] does after [strip_comments]. *)
Lemma scenario_output :
  parse_program (codes "(< ++++++++ . >)") =
    Parsed [mkBlock normal [Literal (codes " ++++++++ . ")]] /\
  run [mkBlock normal [Literal (codes " ++++++++ . ")]] (initial_state []) =
    (Ok tt,
     {| tape := <[0%nat := 36]> (replicate 128 0); pointer := 127;
        instruction_counter := 1; stdin := []; stdout := codes "$" |}).
Proof. split; reflexivity. Qed.

Lemma scenario_two_empty_blocks :
  parse_program (codes "(< >)(< >)") =
    Parsed [mkBlock normal [Literal (codes " ")];
            mkBlock normal [Literal (codes " ")]] /\
  run [mkBlock normal [Literal (codes " ")];
       mkBlock normal [Literal (codes " ")]] (initial_state []) =
    (Ok tt, set_instruction_counter 2 (initial_state [])).
Proof. split; reflexivity. Qed.

Lemma scenario_display_of_dismay :
  run [mkBlock normal [Literal (codes " # . ")]] (initial_state []) =
    (Raise (DisplayOfDismay 0 0), initial_state []).
Proof. reflexivity. Qed.

Lemma scenario_skipped_conditional :
  parse_program (codes "(? ++++++++++ ?)") =
    Parsed [mkBlock conditional [Literal (codes " ++++++++++ ")]] /\
  run [mkBlock conditional [Literal (codes " ++++++++++ ")]] (initial_state []) =
    (Ok tt, set_instruction_counter 1 (set_pointer 127 (initial_state []))).
Proof. split; reflexivity. Qed.

Lemma scenario_input_and_nesting :
  parse_program (codes "(<(<,>),.>)") =
    Parsed [mkBlock normal
              [Nested (mkBlock normal [Literal (codes ",")]);
               Literal (codes ",.")]] /\
  run [mkBlock normal
         [Nested (mkBlock normal [Literal (codes ",")]);
          Literal (codes ",.")]]
    (initial_state (codes "bac")) =
    (Ok tt,
     {| tape := <[127%nat := 97]> (<[0%nat := 98]> (replicate 128 0));
        pointer := 0; instruction_counter := 2;
        stdin := codes "c"; stdout := codes "a" |}).
Proof. split; reflexivity. Qed.

Lemma scenario_wrap_around :
  run [mkBlock normal [Literal (codes "--")]] (initial_state []) =
    (Ok tt,
     {| tape := <[0%nat := 253]> (replicate 128 0); pointer := 127;
        instruction_counter := 1; stdin := []; stdout := [] |}).
Proof. reflexivity. Qed.

(** * Further properties *)

(** ** Reasoning by steps *)

Lemma respects_bind {A B} P E (m : M A) (k : A -> M B) :
  respects P E m -> (forall a, respects P E (k a)) ->
  respects P E (x <- m ;; k x).
Proof.
  intros Hm Hk st HP. unfold bind. destruct (Hm st HP) as [HP1 HE1].
  destruct (m st) as [[a|e] st1]; simpl in *.
  - apply Hk, HP1.
  - split; [exact HP1|]. intros e' [= <-]. apply HE1. reflexivity.
Qed.

Lemma respects_ret {A} P E (a : A) : respects P E (ret a).
Proof. intros st HP. split; [exact HP|]. discriminate. Qed.

Lemma respects_raise {A} P (E : RuntimeError -> Prop) e :
  E e -> respects P E (@raise A e).
Proof. intros He st HP. split; [exact HP|]. intros e' [= <-]. exact He. Qed.

Lemma respects_get P E : respects P E get.
Proof. intros st HP. split; [exact HP|]. discriminate. Qed.

Section LiteralSteps.
Variable P : State -> Prop.
Variable E : RuntimeError -> Prop.
Hypothesis HL : literal_steps P E.

Lemma respects_read_cell : respects P E read_cell.
Proof.
  intros st HP. destruct (read_cell st) as [r st1] eqn:Hr.
  pose proof (read_cell_state _ _ _ Hr) as ->. simpl. split; [exact HP|].
  intros e ->. apply (step_read P E HL st e HP). rewrite Hr. reflexivity.
Qed.

Lemma respects_write_cell v : 0 <= v < 256 -> respects P E (write_cell v).
Proof. intros Hv st HP. apply (step_write P E HL), HP. exact Hv. Qed.

Lemma respects_apply_run ch depth n : respects P E (apply_run ch depth n).
Proof.
  apply respects_bind; [apply respects_read_cell|]. intros v.
  apply respects_write_cell. apply Z.mod_pos_bound. lia.
Qed.

Lemma respects_op_output : respects P E op_output.
Proof.
  apply respects_bind; [apply respects_read_cell|]. intros v.
  apply respects_bind; [apply respects_get|]. intros st0.
  destruct (Z.ltb_spec v 32); simpl.
  { apply respects_raise, (step_dismay P E HL). }
  destruct (Z.gtb_spec v 126); simpl.
  { apply respects_raise, (step_dismay P E HL). }
  intros st HP. split; [|discriminate].
  apply (step_output P E HL); [lia|exact HP].
Qed.

Lemma respects_op_input : respects P E op_input.
Proof.
  intros st HP. unfold op_input, bind, get.
  destruct (stdin st) as [|inp more] eqn:Hin.
  - split; [exact HP|]. intros e [= <-]. apply (step_input_error P E HL).
  - unfold modify.
    apply (respects_write_cell (Z.of_N inp mod 256));
      [apply Z.mod_pos_bound; lia|].
    apply (step_input P E HL st inp more Hin HP).
Qed.

Lemma respects_execute_literal_from depth literal :
  forall po, respects P E (execute_literal_from literal depth po).
Proof.
  remember (length literal) as n eqn:Hn. revert literal Hn.
  induction n as [n IH] using lt_wf_ind.
  intros [|ch rest] Hn po; [apply respects_ret|]. simpl in Hn.
  destruct (is_plus_minus ch) eqn:Hpm.
  - rewrite execute_literal_from_run by exact Hpm.
    apply respects_bind; [apply respects_apply_run|]. intros _.
    assert (Hlt : (length (run_tail ch rest) < n)%nat)
      by (pose proof (run_tail_length ch rest); lia).
    apply (IH _ Hlt _ eq_refl).
  - rewrite execute_literal_from_other by exact Hpm.
    assert (Hlt : (length rest < n)%nat) by lia.
    pose proof (IH _ Hlt _ eq_refl) as Hrec.
    repeat match goal with
    | |- context [if ?b then _ else _] => destruct b
    end;
    try apply Hrec; try (apply respects_raise, (step_unknown P E HL));
    (apply respects_bind; [|intros; apply Hrec]);
    [apply respects_op_output | apply respects_op_input
    | apply respects_write_cell; lia].
Qed.

Hypothesis HB : block_steps P.

Lemma respects_count_instruction : respects P E count_instruction.
Proof.
  intros st HP. split; [|discriminate]. apply (step_count P HB), HP.
Qed.

Lemma respects_apply_pointer_movement override :
  respects P E (apply_pointer_movement override).
Proof.
  intros st HP. split; [|discriminate].
  unfold apply_pointer_movement, modify. simpl.
  destruct (negb (override =? 0)); [|destruct (_ =? 1)];
    apply (step_move P HB); try exact HP; apply Z.mod_pos_bound; lia.
Qed.

Lemma respects_execute_block :
  forall block depth, respects P E (execute_block block depth).
Proof.
  intros block.
  apply (Block_tree_ind
    (fun block => forall depth, respects P E (execute_block block depth))
    (fun its => forall depth acc,
       respects P E (execute_items execute_block its depth acc))).
  - intros bt its Hits depth.
    assert (Hbody : respects P E
      (ov <- execute_items execute_block its depth 0 ;;
       count_instruction ;; apply_pointer_movement ov)).
    { apply respects_bind; [apply Hits|]. intros ov.
      apply respects_bind; [apply respects_count_instruction|]. intros _.
      apply respects_apply_pointer_movement. }
    destruct bt; simpl; [exact Hbody|].
    apply respects_bind; [apply respects_read_cell|]. intros v.
    destruct (v =? 0); [|exact Hbody].
    apply respects_bind; [apply respects_count_instruction|]. intros _.
    apply respects_apply_pointer_movement.
  - intros depth acc. apply respects_ret.
  - intros literal more IH depth acc. simpl.
    apply respects_bind; [|intros; apply IH].
    apply respects_execute_literal_from.
  - intros b more Hb IH depth acc. simpl.
    apply respects_bind; [apply Hb|intros; apply IH].
Qed.

Lemma respects_run blocks : respects P E (run blocks).
Proof.
  induction blocks as [|b more IH]; simpl; [apply respects_ret|].
  apply respects_bind; [apply respects_execute_block|intros; exact IH].
Qed.
End LiteralSteps.

(** ** Input and output *)

(** X1.  Whatever a program does, and whether it returns or raises, it
    only appends to the output, and every character it appends has a
    code from 32 to 126. *)
Theorem run_appends_printable_output (blocks : list Block) (st : State) :
  exists out,
    stdout (snd (run blocks st)) = stdout st ++ out /\
    Forall (fun c => (32 <= c <= 126)%N) out.
Proof.
  apply (respects_run
    (fun st' => exists out, stdout st' = stdout st ++ out /\
                            Forall (fun c => (32 <= c <= 126)%N) out)
    (fun _ => True)).
  - split; auto.
    + intros st0 v _ HP. split; [|auto]. unfold write_cell.
      destruct (py_index _ _); exact HP.
    + intros st0 v Hv (out & Hout & Hpr). exists (out ++ [Z.to_N v]).
      simpl. rewrite Hout, app_assoc. split; [reflexivity|].
      apply Forall_app. split; [exact Hpr|]. constructor; [lia|constructor].
  - split; auto.
  - exists []. rewrite app_nil_r. split; [reflexivity|constructor].
Qed.

(** X2.  A program only consumes input from the front: what is left of
    the input stream after a run is a suffix of what was there. *)
Theorem run_consumes_input_prefix (blocks : list Block) (st : State) :
  exists consumed, stdin st = consumed ++ stdin (snd (run blocks st)).
Proof.
  apply (respects_run
    (fun st' => exists consumed, stdin st = consumed ++ stdin st')
    (fun _ => True)).
  - split; auto.
    + intros st0 v _ HP. split; [|auto]. unfold write_cell.
      destruct (py_index _ _); exact HP.
    + intros st0 inp more Hin (consumed & Hc). exists (consumed ++ [inp]).
      simpl. rewrite Hc, Hin, <- app_assoc. reflexivity.
  - split; auto.
  - exists []. reflexivity.
Qed.

(** ** Tape accesses *)

Lemma write_cell_in_range st v :
  machine_invariant st -> fst (write_cell v st) = Ok tt.
Proof.
  intros (Hlen & _ & Hp). unfold write_cell, py_index. rewrite Hlen.
  destruct (Z.ltb_spec (pointer st) 0); [lia|].
  destruct (Z.leb_spec 0 (pointer st)); [|lia].
  destruct (Z.ltb_spec (pointer st) (Z.of_nat 128)); [|lia]. reflexivity.
Qed.

(** X3.  Started in a state that satisfies the machine invariant, a
    program never raises [IndexError]: every access to the tape is in
    bounds, and a run ends normally or with one of the three exceptions
    of [execute_literal]. *)
Theorem run_raises_no_index_error
    (blocks : list Block) (st : State) (e : RuntimeError) :
  machine_invariant st ->
  fst (run blocks st) = Raise e ->
  e <> IndexError.
Proof.
  intros Hinv Hraise.
  destruct (respects_run machine_invariant (fun e => e <> IndexError))
    with (blocks := blocks) (st := st) as [_ HE]; try exact Hinv; auto.
  - split; try discriminate.
    + intros st0 e0 HP Hr. destruct (read_cell_in_range st0 HP) as (v & Hv & _).
      rewrite Hv in Hr. discriminate Hr.
    + intros st0 v Hv HP. split.
      * apply (stable_write _ machine_invariant_stable); assumption.
      * intros e0 Hw. rewrite (write_cell_in_range st0 v HP) in Hw.
        discriminate Hw.
    + intros st0 inp more _ HP. exact HP.
    + intros st0 v _ HP. exact HP.
  - split.
    + intros st0 HP. exact HP.
    + intros st0 p Hp (Hlen & Hcells & _). repeat split; simpl; auto; lia.
Qed.

Lemma run_raises_no_index_error_witness :
  DisplayOfDismay 0 0 <> IndexError.
Proof.
  apply (run_raises_no_index_error
           [mkBlock normal [Literal (codes "^.")]] (initial_state [])).
  - apply initial_state_invariant.
  - reflexivity.
Defined.

(** X4.  A literal works on the cell under the pointer only: it moves
    neither the pointer nor the counter, keeps the length of the tape,
    and leaves every other cell as it was, whether it returns or
    raises. *)
Theorem literal_changes_one_cell
    (literal : list char) (depth : nat) (st : State) :
  pointer (snd (execute_literal literal depth st)) = pointer st /\
  instruction_counter (snd (execute_literal literal depth st)) =
    instruction_counter st /\
  length (tape (snd (execute_literal literal depth st))) = length (tape st) /\
  forall j : nat,
    py_index (length (tape st)) (pointer st) <> Some j ->
    tape (snd (execute_literal literal depth st)) !! j = tape st !! j.
Proof.
  apply (respects_execute_literal_from
    (fun st' => pointer st' = pointer st /\
                instruction_counter st' = instruction_counter st /\
                length (tape st') = length (tape st) /\
                forall j : nat,
                  py_index (length (tape st)) (pointer st) <> Some j ->
                  tape st' !! j = tape st !! j)
    (fun _ => True)).
  - split; auto.
    intros st0 v _ (Hp & Hc & Hlen & Hcells). split; [|auto].
    unfold write_cell. rewrite Hp, Hlen.
    destruct (py_index (length (tape st)) (pointer st)) as [i|] eqn:Hi;
      simpl; [|auto].
    repeat split; auto.
    + rewrite length_insert. exact Hlen.
    + intros j Hj. rewrite list_lookup_insert_ne by congruence.
      apply Hcells, Hj.
  - auto.
Qed.

(** ** Exceptions of a literal *)

Lemma not_joins_run_other pre ch post :
  is_plus_minus ch = false -> ~ joins_run pre (ch :: post).
Proof.
  intros Hch (c & Hc & _ & Hh). simpl in Hh. injection Hh as <-. congruence.
Qed.

(** X5.  A character that is neither an operator nor whitespace stops
    the literal: when the characters before it have run, the exception
    names that character and the depth, and the state is the one they
    left. *)
Theorem unknown_character_raises
    (pre post : list char) (ch : char) (depth : nat)
    (st st' : State) (po : Z) :
  is_operator ch = false ->
  isspace ch = false ->
  execute_literal pre depth st = (Ok po, st') ->
  execute_literal (pre ++ ch :: post) depth st =
  (Raise (UnknownOperation ch depth), st').
Proof.
  intros Hop Hsp Hpre. unfold execute_literal in *.
  unfold is_operator in Hop.
  apply orb_false_iff in Hop. destruct Hop as [Hop H5].
  apply orb_false_iff in Hop. destruct Hop as [Hop H4].
  apply orb_false_iff in Hop. destruct Hop as [Hop H3].
  apply orb_false_iff in Hop. destruct Hop as [Hop H2].
  apply orb_false_iff in Hop. destruct Hop as [Hop H1].
  rewrite execute_literal_from_app by (apply not_joins_run_other; exact Hop).
  unfold bind. rewrite Hpre.
  rewrite execute_literal_from_other by exact Hop.
  rewrite H1, H2, H3, H4, H5, Hsp. reflexivity.
Qed.

Lemma unknown_character_raises_witness :
  execute_literal (codes "+^x+") 1 (initial_state []) =
  (Raise (UnknownOperation (ord "x") 1),
   set_tape (<[0%nat := 255]> (replicate 128 0)) (initial_state [])).
Proof.
  apply (unknown_character_raises (codes "+^") (codes "+") (ord "x") 1
           (initial_state [])
           (set_tape (<[0%nat := 255]> (replicate 128 0)) (initial_state []))
           (-1)); reflexivity.
Defined.

(** X6.  A literal that returns holds operators and whitespace only. *)
Theorem literal_returns_on_known_characters
    (literal : list char) (depth : nat) (st st' : State) (r : Z) :
  execute_literal literal depth st = (Ok r, st') ->
  Forall (fun ch => is_operator ch || isspace ch = true) literal.
Proof.
  unfold execute_literal. generalize 0 as po. revert st st' r.
  remember (length literal) as n eqn:Hn. revert literal Hn.
  induction n as [n IH] using lt_wf_ind.
  intros [|ch rest] Hn st st' r po Hex; [constructor|]. simpl in Hn.
  destruct (is_plus_minus ch) eqn:Hpm.
  - rewrite execute_literal_from_run in Hex by exact Hpm.
    apply bind_Ok in Hex. destruct Hex as ([] & st1 & _ & Hex).
    assert (Hlt : (length (run_tail ch rest) < n)%nat)
      by (pose proof (run_tail_length ch rest); lia).
    apply (IH _ Hlt _ eq_refl) in Hex.
    assert (Hch : is_operator ch || isspace ch = true)
      by (unfold is_operator; rewrite Hpm; reflexivity).
    constructor; [exact Hch|]. rewrite (run_split ch rest).
    apply Forall_app. split; [|exact Hex].
    apply Forall_replicate, Hch.
  - rewrite execute_literal_from_other in Hex by exact Hpm.
    assert (Hlt : (length rest < n)%nat) by lia.
    pose proof (IH _ Hlt _ eq_refl) as Hrec.
    assert (Hboth : is_operator ch || isspace ch = true /\
      Forall (fun ch => is_operator ch || isspace ch = true) rest).
    { unfold is_operator at 1. rewrite Hpm. simpl.
      destruct (is_char "^" ch); simpl;
        [split; [reflexivity|eapply Hrec, Hex]|].
      destruct (is_char "v" ch); simpl;
        [split; [reflexivity|eapply Hrec, Hex]|].
      destruct (is_char "." ch); simpl.
      { apply bind_Ok in Hex. destruct Hex as ([] & st1 & _ & Hex).
        split; [reflexivity|eapply Hrec, Hex]. }
      destruct (is_char "," ch); simpl.
      { apply bind_Ok in Hex. destruct Hex as ([] & st1 & _ & Hex).
        split; [reflexivity|eapply Hrec, Hex]. }
      destruct (is_char "#" ch); simpl.
      { apply bind_Ok in Hex. destruct Hex as ([] & st1 & _ & Hex).
        split; [reflexivity|eapply Hrec, Hex]. }
      destruct (isspace ch); [|discriminate Hex].
      split; [reflexivity|eapply Hrec, Hex]. }
    destruct Hboth. constructor; assumption.
Qed.

Lemma literal_returns_on_known_characters_witness :
  Forall (fun ch => is_operator ch || isspace ch = true) (codes "+ ^v #,").
Proof.
  apply (literal_returns_on_known_characters (codes "+ ^v #,") 0
           (initial_state (codes "a"))
           (set_stdin [] (set_tape (<[0%nat := 97]> (replicate 128 0))
                            (initial_state (codes "a")))) 0).
  reflexivity.
Defined.

(** X7.  [.] on a cell whose value is below 32 or above 126 raises, with
    the pointer and the value in the exception; nothing is written and
    the state is the one the characters before it left. *)
Theorem unprintable_cell_raises
    (pre post : list char) (depth : nat) (st st' : State)
    (po : Z) (i : nat) (v : Z) :
  execute_literal pre depth st = (Ok po, st') ->
  py_index (length (tape st')) (pointer st') = Some i ->
  tape st' !! i = Some v ->
  v < 32 \/ 126 < v ->
  execute_literal (pre ++ ord "." :: post) depth st =
  (Raise (DisplayOfDismay (pointer st') v), st').
Proof.
  intros Hpre Hi Hv Hrange. unfold execute_literal in *.
  rewrite execute_literal_from_app
    by (apply not_joins_run_other; reflexivity).
  unfold bind at 1. rewrite Hpre.
  rewrite execute_literal_from_other by reflexivity. simpl.
  unfold bind, op_output, bind, read_cell, get. rewrite Hi, Hv.
  destruct (Z.ltb_spec v 32); [reflexivity|].
  destruct (Z.gtb_spec v 126); [reflexivity|lia].
Qed.

Lemma unprintable_cell_raises_witness :
  execute_literal (codes "+++." ) 1 (initial_state []) =
  (Raise (DisplayOfDismay 0 250),
   set_tape (<[0%nat := 250]> (replicate 128 0)) (initial_state [])).
Proof.
  apply (unprintable_cell_raises (codes "+++") [] 1 (initial_state [])
           (set_tape (<[0%nat := 250]> (replicate 128 0)) (initial_state []))
           0 0%nat 250).
  - reflexivity.
  - reflexivity.
  - reflexivity.
  - right. lia.
Defined.

(** X8.  [,] with no input left raises, and the state is the one the
    characters before it left. *)
Theorem exhausted_input_raises
    (pre post : list char) (depth : nat) (st st' : State) (po : Z) :
  execute_literal pre depth st = (Ok po, st') ->
  stdin st' = [] ->
  execute_literal (pre ++ ord "," :: post) depth st = (Raise InputError, st').
Proof.
  intros Hpre Hin. unfold execute_literal in *.
  rewrite execute_literal_from_app
    by (apply not_joins_run_other; reflexivity).
  unfold bind at 1. rewrite Hpre.
  rewrite execute_literal_from_other by reflexivity. simpl.
  unfold bind, op_input, bind, get. rewrite Hin. reflexivity.
Qed.

Lemma exhausted_input_raises_witness :
  execute_literal (codes ",,+") 0 (initial_state (codes "a")) =
  (Raise InputError,
   set_stdin [] (set_tape (<[0%nat := 97]> (replicate 128 0))
                   (initial_state (codes "a")))).
Proof.
  apply (exhausted_input_raises (codes ",") (codes "+") 0
           (initial_state (codes "a"))
           (set_stdin [] (set_tape (<[0%nat := 97]> (replicate 128 0))
                            (initial_state (codes "a")))) 0);
    reflexivity.
Defined.

(** ** The override of a literal *)

Lemma literal_override_count literal depth :
  literal_override literal depth =
  (if Nat.even depth then 1 else -1)
  * (count_char "^" literal - count_char "v" literal).
Proof.
  induction literal as [|c l IH]; simpl; [lia|]. rewrite IH.
  unfold char_override.
  destruct (is_char "^" c) eqn:H1.
  - apply is_char_eq in H1. subst c. simpl.
    destruct (Nat.even depth); lia.
  - destruct (is_char "v" c), (Nat.even depth); lia.
Qed.

(** X9.  A literal that returns gives as override the number of its [^]
    minus the number of its [v] at even depth, and the opposite at odd
    depth; no other character counts. *)
Theorem literal_override_is_carets_minus_vs
    (literal : list char) (depth : nat) (st st' : State) (r : Z) :
  execute_literal literal depth st = (Ok r, st') ->
  r = (if Nat.even depth then 1 else -1)
      * (count_char "^" literal - count_char "v" literal).
Proof.
  intros Hex. unfold execute_literal in Hex.
  apply execute_literal_from_override in Hex. destruct Hex as [-> _].
  rewrite literal_override_count. lia.
Qed.

Lemma literal_override_is_carets_minus_vs_witness :
  -1 = (if Nat.even 3 then 1 else -1)
       * (count_char "^" (codes "^v^ +^v") - count_char "v" (codes "^v^ +^v")).
Proof.
  apply (literal_override_is_carets_minus_vs (codes "^v^ +^v") 3
           (initial_state [])
           (set_tape (<[0%nat := 255]> (replicate 128 0)) (initial_state []))).
  reflexivity.
Defined.

(** ** Sequences of blocks *)

(** X10.  Running two programs one after the other is running the first
    and, when it returns, the second from the state it left; when the
    first raises, nothing of the second is run. *)
Theorem run_blocks_app (blocks1 blocks2 : list Block) (st : State) :
  run (blocks1 ++ blocks2) st =
  match run blocks1 st with
  | (Ok _, st1) => run blocks2 st1
  | (Raise e, st1) => (Raise e, st1)
  end.
Proof.
  revert st. induction blocks1 as [|b more IH]; intros st; [reflexivity|].
  simpl. unfold bind.
  destruct (execute_block b 0 st) as [[[]|e] st1]; [apply IH|reflexivity].
Qed.

(** X11.  A conditional block on a cell that is not zero runs exactly as
    the normal block with the same items. *)
Theorem entered_conditional_runs_as_normal
    (its : list Item) (depth : nat) (st : State) (i : nat) (v : Z) :
  py_index (length (tape st)) (pointer st) = Some i ->
  tape st !! i = Some v ->
  v <> 0 ->
  execute_block (mkBlock conditional its) depth st =
  execute_block (mkBlock normal its) depth st.
Proof.
  intros Hi Hv Hnz. simpl. unfold bind at 1. unfold read_cell.
  rewrite Hi, Hv. destruct (Z.eqb_spec v 0); [contradiction|reflexivity].
Qed.

Lemma entered_conditional_runs_as_normal_witness :
  execute_block (mkBlock conditional [Literal (codes "-.")]) 0
    (set_tape (<[0%nat := 66]> (replicate 128 0)) (initial_state [])) =
  execute_block (mkBlock normal [Literal (codes "-.")]) 0
    (set_tape (<[0%nat := 66]> (replicate 128 0)) (initial_state [])).
Proof.
  apply (entered_conditional_runs_as_normal [Literal (codes "-.")] 0
           (set_tape (<[0%nat := 66]> (replicate 128 0)) (initial_state []))
           0%nat 66).
  - reflexivity.
  - reflexivity.
  - lia.
Defined.

Lemma execute_block_aborted block :
  forall depth st e,
  fst (execute_block block depth st) = Raise e ->
  instruction_counter (snd (execute_block block depth st)) <
  instruction_counter st + Z.of_nat (visited_block block depth st).
Proof.
  apply (Block_tree_ind
    (fun block => forall depth st e,
       fst (execute_block block depth st) = Raise e ->
       instruction_counter (snd (execute_block block depth st)) <
       instruction_counter st + Z.of_nat (visited_block block depth st))
    (fun its => forall depth acc st e,
       fst (execute_items execute_block its depth acc st) = Raise e ->
       instruction_counter
         (snd (execute_items execute_block its depth acc st)) <=
       instruction_counter st
       + Z.of_nat (visited_items visited_block its depth st))).
  - intros bt its Hits depth st e. rewrite execute_block_result.
    simpl visited_block. destruct (body_runs bt st) eqn:Hruns.
    + rewrite block_items_runs by exact Hruns.
      specialize (Hits depth 0 st).
      destruct (execute_items execute_block its depth 0 st) as [[ov|e0] st1];
        simpl in *; [discriminate|].
      intros _. specialize (Hits e0 eq_refl). lia.
    + destruct bt; [discriminate|]. simpl in *. unfold bind.
      destruct (read_cell st) as [[v|e0] st1] eqn:Hr;
        pose proof (read_cell_state _ _ _ Hr); subst st1.
      * destruct (v =? 0); [discriminate|discriminate Hruns].
      * simpl. lia.
  - intros depth acc st e. discriminate.
  - intros literal more IH depth acc st e. simpl. unfold bind.
    pose proof (execute_literal_counter literal depth st) as Hc.
    destruct (execute_literal literal depth st) as [[ov|e0] st1]; simpl in *.
    + rewrite <- Hc. apply IH.
    + lia.
  - intros b more Hb IH depth acc st e. simpl. unfold bind.
    specialize (Hb (depth + 1)%nat st).
    destruct (execute_block_counter b (depth + 1)%nat st) as [_ Heq].
    destruct (execute_block b (depth + 1) st) as [[[]|e0] st1]; simpl in *.
    + intros Hr. specialize (IH depth acc st1 e Hr).
      rewrite (Heq eq_refl) in IH. lia.
    + intros _. specialize (Hb e0 eq_refl). lia.
Qed.

Lemma aborted_run_bound blocks :
  forall st e,
  fst (run blocks st) = Raise e ->
  instruction_counter (snd (run blocks st)) <
  instruction_counter st + Z.of_nat (visited_run blocks st).
Proof.
  induction blocks as [|b more IH]; intros st e; [discriminate|].
  simpl. unfold bind.
  pose proof (execute_block_aborted b 0%nat st) as Hb.
  destruct (execute_block_counter b 0%nat st) as [_ Heq].
  destruct (execute_block b 0 st) as [[[]|e0] st1]; simpl in *.
  - intros Hr. specialize (IH st1 e Hr). rewrite (Heq eq_refl) in IH. lia.
  - intros _. specialize (Hb e0 eq_refl). lia.
Qed.

(** X12.  A run that raises has counted fewer blocks than it has
    visited: the block in which the exception arose, and the blocks
    around it, were entered but not counted. *)
Theorem aborted_run_counts_fewer_blocks
    (blocks : list Block) (st : State) (e : RuntimeError) :
  fst (run blocks st) = Raise e ->
  instruction_counter (snd (run blocks st)) <
  instruction_counter st + Z.of_nat (visited_run blocks st).
Proof.
  intros Hraise. apply (aborted_run_bound blocks st e), Hraise.
Qed.

Lemma aborted_run_counts_fewer_blocks_witness :
  1 < 0 + Z.of_nat 3.
Proof.
  apply (aborted_run_counts_fewer_blocks
           [mkBlock normal [];
            mkBlock normal [Nested (mkBlock normal [Literal (codes ".")])]]
           (initial_state []) (DisplayOfDismay 127 0)).
  reflexivity.
Defined.

(** ** The default movement *)

Lemma default_step_and_back p n :
  0 <= p < 128 ->
  (if (n + 1 + 1) mod 2 =? 1
   then ((if (n + 1) mod 2 =? 1 then (p - 1) mod 128 else (p + 1) mod 128) - 1)
        mod 128
   else ((if (n + 1) mod 2 =? 1 then (p - 1) mod 128 else (p + 1) mod 128) + 1)
        mod 128) = p.
Proof.
  intros Hp. rewrite !odd_mod_2.
  replace (n + 1 + 1) with (Z.succ (Z.succ n)) by lia.
  replace (n + 1) with (Z.succ n) by lia.
  rewrite Z.odd_succ_succ, Z.odd_succ, <- Z.negb_odd.
  destruct (Z.odd n); simpl.
  - rewrite Zminus_mod_idemp_l. replace (p + 1 - 1) with p by lia.
    apply Z.mod_small, Hp.
  - rewrite Zplus_mod_idemp_l. replace (p - 1 + 1) with p by lia.
    apply Z.mod_small, Hp.
Qed.

Lemma empty_block_result bt depth st :
  machine_invariant st ->
  execute_block (mkBlock bt []) depth st = (Ok tt, block_end 0 st).
Proof.
  intros Hinv. rewrite execute_block_result.
  destruct bt; simpl; [reflexivity|].
  destruct (read_cell_in_range st Hinv) as (v & Hv & _).
  unfold bind. rewrite Hv. destruct (v =? 0); reflexivity.
Qed.

(** X13.  Two empty blocks in a row, normal or conditional, leave the
    pointer where it was: the default rule steps one way for the odd
    count and back for the even one.  Only the counter has changed, by
    two. *)
Theorem two_empty_blocks_restore_pointer (bt1 bt2 : BlockType) (st : State) :
  machine_invariant st ->
  run [mkBlock bt1 []; mkBlock bt2 []] st =
  (Ok tt, set_instruction_counter (instruction_counter st + 2) st).
Proof.
  intros Hinv. cbn [run]. unfold bind.
  rewrite (empty_block_result bt1 0 st Hinv).
  assert (Hinv1 : machine_invariant (block_end 0 st)).
  { unfold block_end.
    apply (preserves_bind machine_invariant count_instruction
             (fun _ => apply_pointer_movement 0));
      [apply preserves_count_instruction
      |intros; apply preserves_apply_pointer_movement|exact Hinv]. }
  rewrite (empty_block_result bt2 0 _ Hinv1). unfold ret. f_equal.
  destruct Hinv as (_ & _ & Hp).
  unfold block_end, bind, count_instruction, apply_pointer_movement, modify.
  cbn [snd fst negb Z.eqb].
  unfold set_instruction_counter, set_pointer.
  destruct st as [t p n i o].
  cbn [tape pointer instruction_counter stdin stdout] in *.
  assert (Hback := default_step_and_back p n ltac:(lia)).
  destruct ((n + 1) mod 2 =? 1);
    cbn [tape pointer instruction_counter stdin stdout];
    destruct ((n + 1 + 1) mod 2 =? 1);
    cbn [tape pointer instruction_counter stdin stdout];
    rewrite Hback; f_equal; lia.
Qed.

Lemma two_empty_blocks_restore_pointer_witness :
  run [mkBlock normal []; mkBlock conditional []] (initial_state (codes "a")) =
  (Ok tt, set_instruction_counter 2 (initial_state (codes "a"))).
Proof.
  apply (two_empty_blocks_restore_pointer normal conditional
           (initial_state (codes "a"))).
  apply initial_state_invariant.
Defined.

(** ** The counter and the size of the program *)

Lemma visited_run_le_nodes blocks :
  forall st, (visited_run blocks st <= program_nodes blocks)%nat.
Proof.
  induction blocks as [|b more IH]; intros st; simpl; [lia|].
  pose proof (visited_block_le_nodes b 0%nat st) as Hb.
  destruct (execute_block b 0 st) as [[[]|e] st1];
    [specialize (IH st1)|]; lia.
Qed.

Lemma completed_run_bound blocks :
  forall st st',
  run blocks st = (Ok tt, st') ->
  instruction_counter st' <=
  instruction_counter st + Z.of_nat (program_nodes blocks).
Proof.
  induction blocks as [|b more IH]; intros st st' Hrun.
  - injection Hrun as <-. simpl. lia.
  - simpl in Hrun. unfold bind in Hrun.
    destruct (execute_block_counter b 0%nat st) as [_ Heq].
    pose proof (visited_block_le_nodes b 0%nat st) as Hb.
    destruct (execute_block b 0 st) as [[[]|e] st1]; [|discriminate].
    simpl in *. specialize (IH st1 st' Hrun).
    rewrite (Heq eq_refl) in IH. lia.
Qed.

(** X25.  Every block is executed at most once: whatever the input, a
    run adds to the counter at most the number of blocks written in the
    program, nested ones included. *)
Theorem counter_bounded_by_program_size (blocks : list Block) (st : State) :
  instruction_counter (snd (run blocks st)) <=
  instruction_counter st + Z.of_nat (program_nodes blocks).
Proof.
  pose proof (visited_run_le_nodes blocks st) as Hle.
  destruct (run blocks st) as [[[]|e] st'] eqn:Hrun.
  - apply (completed_run_bound blocks st st' Hrun).
  - pose proof (aborted_run_bound blocks st e) as Hab.
    rewrite Hrun in Hab. simpl in *. specialize (Hab eq_refl). lia.
Qed.

(** ** Depth parity *)

Lemma agree_refl {A} (x : outcome A * State) : agree x x.
Proof. split; reflexivity. Qed.

Lemma forget_depth_Ok {A} (r : outcome A) a :
  forget_depth r = Ok a -> r = Ok a.
Proof. destruct r as [b|[]]; simpl; congruence. Qed.

Lemma forget_depth_Raise {A B} (r : outcome A) e :
  forget_depth r = forget_depth (Raise e) ->
  exists e', r = Raise e' /\
             forget_depth (@Raise B e') = forget_depth (Raise e).
Proof.
  destruct r as [b|e']; [destruct e; discriminate|].
  intros H. exists e'. split; [reflexivity|].
  destruct e', e; simpl in *; congruence.
Qed.

Lemma agree_bind {A B} (m1 m2 : M A) (k1 k2 : A -> M B) st :
  agree (m1 st) (m2 st) ->
  (forall a st', agree (k1 a st') (k2 a st')) ->
  agree ((x <- m1 ;; k1 x) st) ((x <- m2 ;; k2 x) st).
Proof.
  intros [Hs Hr] Hk. unfold bind.
  destruct (m1 st) as [[a|e] st1], (m2 st) as [r2 st2]; simpl in *; subst st2.
  - symmetry in Hr. apply forget_depth_Ok in Hr. subst r2. apply Hk.
  - symmetry in Hr. apply (forget_depth_Raise (B := B)) in Hr.
    destruct Hr as (e' & -> & He). split; [reflexivity|]. simpl.
    symmetry. exact He.
Qed.

Lemma run_effect_parity ch depth n :
  run_effect ch (S (S depth)) n = run_effect ch depth n.
Proof. reflexivity. Qed.

Lemma execute_literal_from_parity depth literal :
  forall po st,
  agree (execute_literal_from literal (S (S depth)) po st)
        (execute_literal_from literal depth po st).
Proof.
  remember (length literal) as n eqn:Hn. revert literal Hn.
  induction n as [n IH] using lt_wf_ind.
  intros [|ch rest] Hn po st; [apply agree_refl|]. simpl in Hn.
  destruct (is_plus_minus ch) eqn:Hpm.
  - rewrite !execute_literal_from_run by exact Hpm.
    assert (Hlt : (length (run_tail ch rest) < n)%nat)
      by (pose proof (run_tail_length ch rest); lia).
    apply agree_bind; [apply agree_refl|]. intros _ st'.
    apply (IH _ Hlt _ eq_refl).
  - rewrite !execute_literal_from_other by exact Hpm.
    assert (Hlt : (length rest < n)%nat) by lia.
    pose proof (IH _ Hlt _ eq_refl) as Hrec.
    change (Nat.even (S (S depth))) with (Nat.even depth).
    repeat match goal with
    | |- context [if ?b then _ else _] => destruct b
    end;
    try apply Hrec; try (split; reflexivity);
    (apply agree_bind; [apply agree_refl|intros; apply Hrec]).
Qed.

Lemma execute_block_parity block :
  forall depth st,
  agree (execute_block block (S (S depth)) st) (execute_block block depth st).
Proof.
  apply (Block_tree_ind
    (fun block => forall depth st,
       agree (execute_block block (S (S depth)) st)
             (execute_block block depth st))
    (fun its => forall depth acc st,
       agree (execute_items execute_block its (S (S depth)) acc st)
             (execute_items execute_block its depth acc st))).
  - intros bt its Hits depth st.
    assert (Hbody : forall st0,
      agree ((ov <- execute_items execute_block its (S (S depth)) 0 ;;
              count_instruction ;; apply_pointer_movement ov) st0)
            ((ov <- execute_items execute_block its depth 0 ;;
              count_instruction ;; apply_pointer_movement ov) st0)).
    { intros st0. apply agree_bind; [apply Hits|]. intros; apply agree_refl. }
    destruct bt; simpl; [apply Hbody|].
    apply agree_bind; [apply agree_refl|]. intros v st'.
    destruct (v =? 0); [apply agree_refl|apply Hbody].
  - intros depth acc st. apply agree_refl.
  - intros literal more IH depth acc st. simpl.
    apply agree_bind; [apply execute_literal_from_parity|].
    intros; apply IH.
  - intros b more Hb IH depth acc st. simpl.
    apply agree_bind; [apply (Hb (depth + 1)%nat)|]. intros; apply IH.
Qed.

(** X14.  Only the parity of the depth matters: a block run two levels
    deeper ends in the same state with the same outcome, but for the
    depth that an unknown-operation exception reports. *)
Theorem depth_matters_by_parity_only
    (block : Block) (depth : nat) (st : State) :
  snd (execute_block block (S (S depth)) st) =
    snd (execute_block block depth st) /\
  forget_depth (fst (execute_block block (S (S depth)) st)) =
    forget_depth (fst (execute_block block depth st)).
Proof.
  destruct (execute_block_parity block depth st) as [Hstate Houtcome].
  split; [exact Hstate|exact Houtcome].
Qed.

(** ** Polarity *)

Lemma opposite_cases ch :
  ch = ord "+" \/ ch = ord "-" \/ ch = ord "^" \/ ch = ord "v" \/
  (is_char "+" ch = false /\ is_char "-" ch = false /\
   is_char "^" ch = false /\ is_char "v" ch = false /\ opposite ch = ch).
Proof.
  unfold opposite, is_char.
  destruct (N.eqb_spec ch (ord "+")); [auto|].
  destruct (N.eqb_spec ch (ord "-")); [auto|].
  destruct (N.eqb_spec ch (ord "^")); [auto|].
  destruct (N.eqb_spec ch (ord "v")); [auto|].
  right. right. right. right. auto.
Qed.

Lemma opposite_involutive ch : opposite (opposite ch) = ch.
Proof.
  destruct (opposite_cases ch) as [->|[->|[->|[->|(_ & _ & _ & _ & H)]]]];
    try reflexivity.
  rewrite H. exact H.
Qed.

Lemma opposite_eqb c ch : N.eqb (opposite c) (opposite ch) = N.eqb c ch.
Proof.
  destruct (N.eqb_spec c ch) as [->|Hne]; [apply N.eqb_refl|].
  apply N.eqb_neq. intros H. apply Hne.
  rewrite <- (opposite_involutive c), H. apply opposite_involutive.
Qed.

Lemma run_count_opposite ch rest :
  run_count (opposite ch) (map opposite rest) = run_count ch rest.
Proof.
  induction rest as [|c r IH]; simpl; [reflexivity|].
  rewrite opposite_eqb, IH. reflexivity.
Qed.

Lemma run_tail_opposite ch rest :
  run_tail (opposite ch) (map opposite rest) = map opposite (run_tail ch rest).
Proof.
  induction rest as [|c r IH]; simpl; [reflexivity|].
  rewrite opposite_eqb, IH. destruct (N.eqb c ch); reflexivity.
Qed.

Lemma run_effect_opposite ch depth n :
  is_plus_minus ch = true ->
  run_effect (opposite ch) depth n = run_effect ch (S depth) n.
Proof.
  intros Hpm. rewrite !run_effect_triangular.
  rewrite Nat.even_succ, <- Nat.negb_even.
  unfold is_plus_minus in Hpm. apply orb_true_iff in Hpm.
  destruct Hpm as [H|H]; apply is_char_eq in H; subst ch;
    destruct (Nat.even depth); reflexivity.
Qed.

Lemma execute_literal_from_opposite depth literal :
  forall po st,
  agree (execute_literal_from literal (S depth) po st)
        (execute_literal_from (map opposite literal) depth po st).
Proof.
  remember (length literal) as n eqn:Hn. revert literal Hn.
  induction n as [n IH] using lt_wf_ind.
  intros [|ch rest] Hn po st; [apply agree_refl|]. simpl in Hn.
  assert (Hrec : forall po0 st0,
    agree (execute_literal_from rest (S depth) po0 st0)
          (execute_literal_from (map opposite rest) depth po0 st0)).
  { assert (Hlt : (length rest < n)%nat) by lia. apply (IH _ Hlt _ eq_refl). }
  assert (Hrun : is_plus_minus ch = true ->
    agree (execute_literal_from (ch :: rest) (S depth) po st)
          (execute_literal_from (map opposite (ch :: rest)) depth po st)).
  { intros Hpm.
    assert (Hpm' : is_plus_minus (opposite ch) = true).
    { unfold is_plus_minus in Hpm. apply orb_true_iff in Hpm.
      destruct Hpm as [H|H]; apply is_char_eq in H; subst ch; reflexivity. }
    cbn [map]. rewrite !execute_literal_from_run by assumption.
    rewrite run_count_opposite, run_tail_opposite.
    unfold apply_run. rewrite run_effect_opposite by exact Hpm.
    apply agree_bind; [apply agree_refl|]. intros _ st'.
    assert (Hlt : (length (run_tail ch rest) < n)%nat)
      by (pose proof (run_tail_length ch rest); lia).
    apply (IH _ Hlt _ eq_refl). }
  destruct (opposite_cases ch) as [->|[->|[->|[->|(H1 & H2 & H3 & H4 & Hsame)]]]].
  - apply Hrun. reflexivity.
  - apply Hrun. reflexivity.
  - cbn [map]. rewrite !execute_literal_from_other by reflexivity.
    change (opposite (ord "^")) with (ord "v").
    rewrite Nat.even_succ, <- Nat.negb_even.
    destruct (Nat.even depth); apply Hrec.
  - cbn [map]. rewrite !execute_literal_from_other by reflexivity.
    change (opposite (ord "v")) with (ord "^").
    rewrite Nat.even_succ, <- Nat.negb_even.
    destruct (Nat.even depth); apply Hrec.
  - cbn [map]. rewrite Hsame.
    assert (Hpm : is_plus_minus ch = false)
      by (unfold is_plus_minus; rewrite H1, H2; reflexivity).
    rewrite !execute_literal_from_other by exact Hpm.
    rewrite H3, H4. simpl.
    repeat match goal with
    | |- context [if ?b then _ else _] => destruct b
    end;
    try apply Hrec; try (split; reflexivity);
    (apply agree_bind; [apply agree_refl|intros; apply Hrec]).
Qed.

Lemma execute_block_opposite block :
  forall depth st,
  agree (execute_block block (S depth) st)
        (execute_block (opposite_block block) depth st).
Proof.
  apply (Block_tree_ind
    (fun block => forall depth st,
       agree (execute_block block (S depth) st)
             (execute_block (opposite_block block) depth st))
    (fun its => forall depth acc st,
       agree (execute_items execute_block its (S depth) acc st)
             (execute_items execute_block
                (map (opposite_item opposite_block) its) depth acc st))).
  - intros bt its Hits depth st.
    assert (Hbody : forall st0,
      agree ((ov <- execute_items execute_block its (S depth) 0 ;;
              count_instruction ;; apply_pointer_movement ov) st0)
            ((ov <- execute_items execute_block
                      (map (opposite_item opposite_block) its) depth 0 ;;
              count_instruction ;; apply_pointer_movement ov) st0)).
    { intros st0. apply agree_bind; [apply Hits|]. intros; apply agree_refl. }
    destruct bt; cbn [opposite_block execute_block]; [apply Hbody|].
    apply agree_bind; [apply agree_refl|]. intros v st'.
    destruct (v =? 0); [apply agree_refl|apply Hbody].
  - intros depth acc st. apply agree_refl.
  - intros literal more IH depth acc st. cbn [map opposite_item execute_items].
    apply agree_bind; [apply execute_literal_from_opposite|].
    intros; apply IH.
  - intros b more Hb IH depth acc st. cbn [map opposite_item execute_items].
    apply agree_bind; [apply (Hb (depth + 1)%nat)|]. intros; apply IH.
Qed.

(** X15.  One level deeper, every operator acts as its opposite: a
    block run at depth [depth + 1] ends in the same state, with the same
    outcome but for a reported depth, as the block with [+] and [-],
    and [^] and [v], exchanged in all its literals run at [depth]. *)
Theorem deeper_block_is_opposite_block
    (block : Block) (depth : nat) (st : State) :
  snd (execute_block block (S depth) st) =
    snd (execute_block (opposite_block block) depth st) /\
  forget_depth (fst (execute_block block (S depth) st)) =
    forget_depth (fst (execute_block (opposite_block block) depth st)).
Proof.
  destruct (execute_block_opposite block depth st) as [Hstate Houtcome].
  split; [exact Hstate|exact Houtcome].
Qed.

Example opposite_block_example :
  opposite_block
    (mkBlock normal [Literal (codes "+^ ."); Nested (mkBlock conditional [Literal (codes "-v#")])]) =
  mkBlock normal [Literal (codes "-v ."); Nested (mkBlock conditional [Literal (codes "+^#")])].
Proof. reflexivity. Qed.

(** ** What the parser returns *)

Lemma unparse_items_app its1 its2 :
  unparse_items unparse_block (its1 ++ its2) =
  unparse_items unparse_block its1 ++ unparse_items unparse_block its2.
Proof. unfold unparse_items. rewrite map_app, concat_app. reflexivity. Qed.

Lemma unparse_items_flush its buf :
  unparse_items unparse_block (flush its buf) =
  unparse_items unparse_block its ++ buf.
Proof.
  destruct buf as [|c buf]; cbn [flush]; [rewrite app_nil_r; reflexivity|].
  rewrite unparse_items_app. f_equal.
  unfold unparse_items. simpl. rewrite app_nil_r. reflexivity.
Qed.

(** The characters consumed by [parse_block] are the text of the block
    it returns. *)
Lemma parse_functions_sound source fuel :
  (forall index block index',
     parse_block fuel source index = Parsed (block, index') ->
     take index' source = take index source ++ unparse_block block) /\
  (forall bt index its buf prefix block index',
     take index source =
       prefix ++ opening_token bt ++ unparse_items unparse_block its ++ buf ->
     parse_block_loop fuel source bt (closing_token_of bt) index its buf =
       Parsed (block, index') ->
     take index' source = prefix ++ unparse_block block).
Proof.
  induction fuel as [|fuel [IHb IHl]]; [split; intros; discriminate|].
  split.
  - intros index block index'. simpl.
    destruct (source !! index) as [c0|] eqn:Hc0; [|discriminate].
    destruct (is_char "(" c0) eqn:H0; [|discriminate]. simpl.
    destruct (source !! (index + 1)%nat) as [c1|] eqn:Hc1; [|discriminate].
    apply is_char_eq in H0. subst c0.
    assert (Htake : forall c, c1 = c ->
      take (index + 1 + 1) source = take index source ++ [ord "("; c]).
    { intros c <-. rewrite !Nat.add_1_r in *.
      rewrite (take_S_r _ _ _ Hc1), (take_S_r _ _ _ Hc0), <- app_assoc.
      reflexivity. }
    destruct (is_char "<" c1) eqn:H1.
    { apply is_char_eq in H1. intros Hl.
      apply (IHl normal _ [] [] (take index source)) in Hl; [exact Hl|].
      rewrite (Htake _ H1). reflexivity. }
    destruct (is_char "?" c1) eqn:H2; [|discriminate].
    apply is_char_eq in H2. intros Hl.
    apply (IHl conditional _ [] [] (take index source)) in Hl; [exact Hl|].
    rewrite (Htake _ H2). reflexivity.
  - intros bt index its buf prefix block index' Htake. simpl.
    destruct (source !! index) as [c|] eqn:Hc; [|discriminate].
    unfold list_char_eqb.
    destruct (bool_decide_reflect
                (slice2 source index = closing_token_of bt)) as [Hs|Hs].
    { intros [= <- <-]. rewrite <- take_take_drop.
      unfold slice2 in Hs. rewrite Hs, Htake. simpl.
      rewrite unparse_items_flush, <- !app_assoc. reflexivity. }
    destruct (is_char "(" c && _).
    + destruct (parse_block fuel source index) as [[nested i1]|e|] eqn:Hn;
        [|discriminate|discriminate].
      apply IHb in Hn. apply IHl.
      assert (Hone : unparse_items unparse_block [Nested nested] =
                     unparse_block nested)
        by (unfold unparse_items; simpl; apply app_nil_r).
      rewrite Hn, Htake, unparse_items_app, unparse_items_flush, Hone.
      rewrite app_nil_r, <- !app_assoc. reflexivity.
    + apply IHl. rewrite Nat.add_1_r, (take_S_r _ _ _ Hc), Htake.
      rewrite <- !app_assoc. reflexivity.
Qed.

Lemma program_text_snoc_space source blocks c :
  isspace c = true -> program_text source blocks ->
  program_text (source ++ [c]) blocks.
Proof.
  intros Hc. induction 1 as [ws Hws|ws b rest blocks Hws _ IH].
  - constructor. apply Forall_app. split; [exact Hws|]. repeat constructor.
    exact Hc.
  - rewrite <- !app_assoc. constructor; assumption.
Qed.

Lemma program_text_snoc_block source blocks block :
  program_text source blocks ->
  program_text (source ++ unparse_block block) (blocks ++ [block]).
Proof.
  induction 1 as [ws Hws|ws b rest blocks Hws _ IH].
  - simpl. rewrite <- (app_nil_r (unparse_block block)) at 1.
    constructor; [exact Hws|]. constructor. constructor.
  - rewrite <- !app_assoc. simpl. constructor; assumption.
Qed.

Lemma parse_program_from_sound source fuel :
  forall index blocks result,
  program_text (take index source) blocks ->
  parse_program_from fuel source index blocks = Parsed result ->
  program_text source result.
Proof.
  induction fuel as [|fuel IH]; intros index blocks result Htext; [discriminate|].
  simpl. destruct (source !! index) as [c|] eqn:Hc.
  - destruct (isspace c) eqn:Hs.
    + apply IH. rewrite Nat.add_1_r, (take_S_r _ _ _ Hc).
      apply program_text_snoc_space; assumption.
    + destruct (is_char "(" c); [|discriminate].
      destruct (parse_block fuel source index) as [[b i1]|e|] eqn:Hb;
        [|discriminate|discriminate].
      apply IH. destruct (parse_functions_sound source fuel) as [Hsound _].
      rewrite (Hsound _ _ _ Hb). apply program_text_snoc_block, Htext.
  - intros [= <-]. apply lookup_ge_None in Hc.
    rewrite take_ge in Htext by exact Hc. exact Htext.
Qed.

(** X16.  What [parse_program] returns is what the source says: the
    source is the text of the returned blocks, one after the other,
    each with its opening token, its items and its closing token, and
    nothing but whitespace before, between and after them. *)
Theorem parsed_blocks_spell_the_source
    (source : list char) (blocks : list Block) :
  parse_program source = Parsed blocks ->
  program_text source blocks.
Proof.
  intros Hparse. unfold parse_program in Hparse.
  eapply parse_program_from_sound; [|exact Hparse].
  simpl. constructor. constructor.
Qed.

Lemma parsed_blocks_spell_the_source_witness :
  program_text (codes " (<+(?-?)>) (<>)")
    [mkBlock normal [Literal (codes "+");
                     Nested (mkBlock conditional [Literal (codes "-")])];
     mkBlock normal []].
Proof.
  apply (parsed_blocks_spell_the_source (codes " (<+(?-?)>) (<>)")).
  reflexivity.
Defined.

(** ** What the parser accepts *)

Lemma slice2_app pre t : slice2 (pre ++ t) (length pre) = take 2 t.
Proof. unfold slice2. rewrite drop_app_length. reflexivity. Qed.

Lemma unparse_block_opening block :
  exists rest, unparse_block block = opening_token (block_type block) ++ rest.
Proof. destruct block as [bt its]. simpl. eauto. Qed.

Lemma unparse_block_length block : (4 <= length (unparse_block block))%nat.
Proof.
  destruct block as [[|] its]; simpl; rewrite !length_app; simpl; lia.
Qed.

(** One plain character goes to the literal buffer. *)
Lemma loop_step_plain fuel pre c rest bt its buf :
  plain c = true ->
  parse_block_loop (S fuel) (pre ++ c :: rest) bt (closing_token_of bt)
    (length pre) its buf =
  parse_block_loop fuel (pre ++ c :: rest) bt (closing_token_of bt)
    (length pre + 1) its (buf ++ [c]).
Proof.
  intros Hc. unfold plain in Hc. apply negb_true_iff in Hc.
  apply orb_false_iff in Hc. destruct Hc as [Hc H3].
  apply orb_false_iff in Hc. destruct Hc as [H1 H2].
  cbn [parse_block_loop]. rewrite list_lookup_middle by reflexivity.
  rewrite slice2_app. unfold list_char_eqb.
  destruct (bool_decide_reflect
              (take 2 (c :: rest) = closing_token_of bt)) as [Heq|_].
  { exfalso. destruct bt; simpl in Heq; injection Heq as -> _;
      discriminate. }
  rewrite H1. reflexivity.
Qed.

(** The closing token ends the block. *)
Lemma loop_step_closing fuel pre post bt its buf :
  parse_block_loop (S fuel) (pre ++ closing_token_of bt ++ post) bt
    (closing_token_of bt) (length pre) its buf =
  Parsed (mkBlock bt (flush its buf), (length pre + 2)%nat).
Proof.
  cbn [parse_block_loop]. rewrite slice2_app. unfold list_char_eqb.
  destruct bt; cbn [closing_token_of codes app];
    rewrite list_lookup_middle by reflexivity;
    rewrite bool_decide_eq_true_2 by reflexivity; reflexivity.
Qed.

(** The opening token of a nested block hands over to [parse_block]. *)
Lemma loop_step_nested fuel pre block rest bt its buf :
  parse_block_loop (S fuel) (pre ++ unparse_block block ++ rest) bt
    (closing_token_of bt) (length pre) its buf =
  match parse_block fuel (pre ++ unparse_block block ++ rest) (length pre) with
  | Parsed (nested_block, index') =>
      parse_block_loop fuel (pre ++ unparse_block block ++ rest) bt
        (closing_token_of bt) index'
        (flush its buf ++ [Nested nested_block]) []
  | ParseFail e => ParseFail e
  | OutOfFuel => OutOfFuel
  end.
Proof.
  destruct (unparse_block_opening block) as (body & Hopen).
  rewrite Hopen. cbn [parse_block_loop]. rewrite slice2_app.
  unfold list_char_eqb.
  destruct (block_type block), bt; cbn [opening_token codes app];
    rewrite list_lookup_middle by reflexivity;
    (rewrite bool_decide_eq_false_2 by discriminate);
    change (pre ++ ord "(" :: ?x) with (pre ++ [ord "("] ++ x);
    rewrite (app_assoc pre [ord "("]);
    (rewrite (list_lookup_middle (pre ++ [ord "("]))
       by (rewrite length_app; reflexivity));
    reflexivity.
Qed.

(** [parse_block] on an opening token starts the loop behind it. *)
Lemma parse_block_step_opening fuel pre bt rest :
  parse_block (S fuel) (pre ++ opening_token bt ++ rest) (length pre) =
  parse_block_loop fuel (pre ++ opening_token bt ++ rest) bt
    (closing_token_of bt) (length pre + 1 + 1) [] [].
Proof.
  cbn [parse_block].
  destruct bt; cbn [opening_token codes app];
    rewrite list_lookup_middle by reflexivity;
    change (pre ++ ord "(" :: ?x) with (pre ++ [ord "("] ++ x);
    rewrite (app_assoc pre [ord "("]);
    (rewrite (list_lookup_middle (pre ++ [ord "("]))
       by (rewrite length_app; reflexivity));
    reflexivity.
Qed.

Lemma loop_plain_literal l :
  forallb plain l = true ->
  forall fuel pre rest bt its buf,
  parse_block_loop (length l + fuel) (pre ++ l ++ rest) bt
    (closing_token_of bt) (length pre) its buf =
  parse_block_loop fuel (pre ++ l ++ rest) bt (closing_token_of bt)
    (length pre + length l) its (buf ++ l).
Proof.
  induction l as [|c l IH]; intros Hl fuel pre rest bt its buf.
  - simpl. rewrite Nat.add_0_r, app_nil_r. reflexivity.
  - simpl in Hl. apply andb_true_iff in Hl. destruct Hl as [Hc Hl].
    cbn [length Nat.add app]. rewrite loop_step_plain by exact Hc.
    change (pre ++ c :: l ++ rest) with (pre ++ [c] ++ l ++ rest).
    rewrite (app_assoc pre [c]).
    replace (length pre + 1)%nat with (length (pre ++ [c]))
      by (rewrite length_app; reflexivity).
    rewrite (IH Hl). rewrite length_app, <- !app_assoc. simpl.
    replace (length pre + 1 + length l)%nat with (length pre + S (length l))%nat
      by lia.
    reflexivity.
Qed.

Lemma parse_block_complete block :
  forall pre post fuel,
  canonical_block block = true ->
  (length (unparse_block block) <= fuel)%nat ->
  parse_block fuel (pre ++ unparse_block block ++ post) (length pre) =
  Parsed (block, (length pre + length (unparse_block block))%nat).
Proof.
  apply (Block_tree_ind
    (fun block => forall pre post fuel,
       canonical_block block = true ->
       (length (unparse_block block) <= fuel)%nat ->
       parse_block fuel (pre ++ unparse_block block ++ post) (length pre) =
       Parsed (block, (length pre + length (unparse_block block))%nat))
    (fun its => forall bt pre post fuel done buf,
       canonical_items canonical_block its = true ->
       (buf <> [] ->
        match its with item :: _ => is_literal item = false | [] => True end) ->
       (length (unparse_items unparse_block its) + 2 < fuel)%nat ->
       parse_block_loop fuel
         (pre ++ unparse_items unparse_block its ++ closing_token_of bt ++ post)
         bt (closing_token_of bt) (length pre) done buf =
       Parsed (mkBlock bt (flush done buf ++ its),
               (length pre + length (unparse_items unparse_block its) + 2)%nat))).
  - intros bt its Hits pre post fuel Hcan Hfuel.
    cbn [unparse_block canonical_block] in *.
    assert (Hlen : length (closing_token_of bt) = 2%nat /\
                   length (opening_token bt) = 2%nat)
      by (destruct bt; split; reflexivity).
    destruct Hlen as [Hlc Hlo].
    rewrite !length_app, Hlc, Hlo in *.
    destruct fuel as [|fuel]; [lia|].
    rewrite <- !app_assoc. rewrite parse_block_step_opening.
    rewrite (app_assoc pre (opening_token bt)).
    replace (length pre + 1 + 1)%nat with (length (pre ++ opening_token bt))
      by (rewrite length_app, Hlo; lia).
    rewrite (Hits bt (pre ++ opening_token bt) post fuel [] []);
      [|exact Hcan|congruence|lia].
    rewrite length_app, Hlo. simpl. f_equal. f_equal. lia.
  - intros bt pre post fuel done buf _ _ Hfuel.
    destruct fuel as [|fuel]; [simpl in Hfuel; lia|].
    cbn [unparse_items map concat app length].
    rewrite loop_step_closing, app_nil_r, Nat.add_0_r. reflexivity.
  - intros literal more IH bt pre post fuel done buf Hcan Hbuf Hfuel.
    destruct buf as [|c buf]; [|specialize (Hbuf ltac:(discriminate));
                                 discriminate Hbuf].
    cbn [canonical_items] in Hcan.
    apply andb_true_iff in Hcan. destruct Hcan as [Hcan Hmore].
    apply andb_true_iff in Hcan. destruct Hcan as [Hcan Hnext].
    apply andb_true_iff in Hcan. destruct Hcan as [Hne Hplain].
    apply negb_true_iff, bool_decide_eq_false in Hne.
    change (unparse_items unparse_block (Literal literal :: more))
      with (literal ++ unparse_items unparse_block more) in *.
    rewrite length_app in *. rewrite <- !app_assoc.
    replace fuel with (length literal + (fuel - length literal))%nat by lia.
    rewrite (loop_plain_literal literal Hplain).
    rewrite (app_assoc pre literal).
    replace (length pre + length literal)%nat with (length (pre ++ literal))
      by (rewrite length_app; reflexivity).
    rewrite IH; [|exact Hmore| |lia].
    + rewrite length_app. f_equal. f_equal.
      * destruct literal; [congruence|]. cbn [flush app].
        rewrite <- app_assoc. reflexivity.
      * lia.
    + intros _. apply negb_true_iff in Hnext.
      destruct more; [exact I|exact Hnext].
  - intros b more Hb IH bt pre post fuel done buf Hcan _ Hfuel.
    cbn [canonical_items] in Hcan.
    apply andb_true_iff in Hcan. destruct Hcan as [Hcb Hmore].
    change (unparse_items unparse_block (Nested b :: more))
      with (unparse_block b ++ unparse_items unparse_block more) in *.
    rewrite length_app in *. rewrite <- !app_assoc.
    pose proof (unparse_block_length b) as Hlb.
    destruct fuel as [|fuel]; [lia|].
    rewrite loop_step_nested.
    rewrite (Hb pre _ fuel Hcb) by lia.
    rewrite (app_assoc pre (unparse_block b)).
    replace (length pre + length (unparse_block b))%nat
      with (length (pre ++ unparse_block b))
      by (rewrite length_app; reflexivity).
    rewrite IH; [|exact Hmore|congruence|lia].
    rewrite length_app. f_equal. f_equal.
    + cbn [flush]. rewrite <- app_assoc. reflexivity.
    + lia.
Qed.

Lemma skip_top_level_space ws :
  Forall (fun c => isspace c = true) ws ->
  forall fuel pre post done,
  parse_program_from (length ws + fuel) (pre ++ ws ++ post) (length pre) done =
  parse_program_from fuel (pre ++ ws ++ post) (length pre + length ws) done.
Proof.
  induction 1 as [|c ws Hc _ IH]; intros fuel pre post done.
  - simpl. rewrite Nat.add_0_r. reflexivity.
  - cbn [length Nat.add app parse_program_from].
    rewrite list_lookup_middle by reflexivity. rewrite Hc.
    change (pre ++ c :: ws ++ post) with (pre ++ [c] ++ ws ++ post).
    rewrite (app_assoc pre [c]).
    replace (length pre + 1)%nat with (length (pre ++ [c]))
      by (rewrite length_app; reflexivity).
    rewrite IH, length_app. simpl.
    replace (length pre + 1 + length ws)%nat
      with (length pre + S (length ws))%nat by lia.
    reflexivity.
Qed.

(** The top-level loop gets through the text of well-formed blocks and
    collects them. *)
Lemma parse_program_from_prefix text blocks :
  program_text text blocks ->
  forallb canonical_block blocks = true ->
  forall pre post done fuel,
  (length text + length post < fuel)%nat ->
  exists fuel',
    (length post < fuel')%nat /\
    parse_program_from fuel (pre ++ text ++ post) (length pre) done =
    parse_program_from fuel' (pre ++ text ++ post)
      (length pre + length text) (done ++ blocks).
Proof.
  induction 1 as [ws Hws|ws b rest blocks Hws _ IH];
    intros Hcan pre post done fuel Hfuel.
  - exists (fuel - length ws)%nat. split; [lia|].
    assert (Hskip : parse_program_from fuel (pre ++ ws ++ post) (length pre) done =
                    parse_program_from (fuel - length ws) (pre ++ ws ++ post)
                      (length pre + length ws) done).
    { replace fuel with (length ws + (fuel - length ws))%nat at 1 by lia.
      apply (skip_top_level_space ws Hws). }
    rewrite Hskip, app_nil_r. reflexivity.
  - cbn [forallb] in Hcan. apply andb_true_iff in Hcan.
    destruct Hcan as [Hb Hrest].
    rewrite !length_app in Hfuel. pose proof (unparse_block_length b) as Hlb.
    set (f := (fuel - length ws - 1)%nat).
    set (source := pre ++ (ws ++ unparse_block b ++ rest) ++ post).
    assert (Hsrc1 : source = pre ++ ws ++ unparse_block b ++ rest ++ post)
      by (unfold source; rewrite <- !app_assoc; reflexivity).
    assert (Hsrc2 : source = (pre ++ ws) ++ unparse_block b ++ rest ++ post)
      by (rewrite Hsrc1, <- !app_assoc; reflexivity).
    assert (Hsrc3 : source = ((pre ++ ws) ++ unparse_block b) ++ rest ++ post)
      by (rewrite Hsrc2, <- !app_assoc; reflexivity).
    assert (Hskip : parse_program_from fuel source (length pre) done =
                    parse_program_from (S f) source (length (pre ++ ws)) done).
    { replace fuel with (length ws + S f)%nat by (unfold f; lia).
      rewrite Hsrc1, (skip_top_level_space ws Hws), length_app. reflexivity. }
    assert (Hblock : parse_program_from (S f) source (length (pre ++ ws)) done =
                     parse_program_from f source
                       (length ((pre ++ ws) ++ unparse_block b)) (done ++ [b])).
    { cbn [parse_program_from]. rewrite Hsrc2.
      destruct (unparse_block_opening b) as (body & Hopen).
      assert (Hhead : ((pre ++ ws) ++ unparse_block b ++ rest ++ post)
                        !! length (pre ++ ws) = Some (ord "(")).
      { rewrite Hopen. destruct (block_type b); cbn [opening_token codes app];
          apply list_lookup_middle; reflexivity. }
      rewrite Hhead.
      change (isspace (ord "(")) with false.
      change (is_char "(" (ord "(")) with true. cbn iota.
      rewrite (parse_block_complete b (pre ++ ws) (rest ++ post) f Hb)
        by (unfold f; lia).
      rewrite (length_app (pre ++ ws)). reflexivity. }
    destruct (IH Hrest ((pre ++ ws) ++ unparse_block b) post (done ++ [b]) f)
      as (fuel' & Hfuel' & Heq); [unfold f; lia|].
    exists fuel'. split; [exact Hfuel'|].
    rewrite Hskip, Hblock, Hsrc3, Heq. f_equal.
    + rewrite !length_app. lia.
    + rewrite <- app_assoc. reflexivity.
Qed.

(** X17.  Parsing is the inverse of writing a program down: the text of
    a list of blocks whose literals are not empty, hold no [(], [>] or
    [?], and are separated by nested blocks, with any whitespace before,
    between and after the blocks, parses to that list. *)
Theorem parse_program_of_program_text
    (source : list char) (blocks : list Block) :
  program_text source blocks ->
  forallb canonical_block blocks = true ->
  parse_program source = Parsed blocks.
Proof.
  intros Htext Hcan. unfold parse_program.
  destruct (parse_program_from_prefix source blocks Htext Hcan [] [] []
              (S (length source))) as (fuel' & Hfuel' & Heq).
  { simpl. lia. }
  cbn [app length Nat.add] in Heq. rewrite app_nil_r in Heq. rewrite Heq.
  destruct fuel' as [|f]; [simpl in Hfuel'; lia|].
  cbn [parse_program_from]. rewrite (lookup_ge_None_2 _ _ (le_n _)).
  reflexivity.
Qed.

Lemma parse_program_of_program_text_witness :
  parse_program
    (codes " " ++
     unparse_block (mkBlock normal
       [Literal (codes "+ .v"); Nested (mkBlock conditional []);
        Literal (codes "#")]) ++ codes "
") =
  Parsed [mkBlock normal
            [Literal (codes "+ .v"); Nested (mkBlock conditional []);
             Literal (codes "#")]].
Proof.
  apply (parse_program_of_program_text
           (codes " " ++
            unparse_block (mkBlock normal
              [Literal (codes "+ .v"); Nested (mkBlock conditional []);
               Literal (codes "#")]) ++ codes "
")).
  - apply program_text_cons; [repeat constructor|].
    apply program_text_nil. repeat constructor.
  - reflexivity.
Defined.

(** ** Parse errors *)

Lemma parse_program_after_prefix text blocks post :
  program_text text blocks ->
  forallb canonical_block blocks = true ->
  exists fuel',
    (length post < fuel')%nat /\
    parse_program (text ++ post) =
    parse_program_from fuel' (text ++ post) (length text) blocks.
Proof.
  intros Htext Hcan. unfold parse_program.
  destruct (parse_program_from_prefix text blocks Htext Hcan [] post []
              (S (length (text ++ post)))) as (fuel' & Hfuel' & Heq).
  { rewrite length_app. lia. }
  exists fuel'. split; [exact Hfuel'|]. exact Heq.
Qed.

(** X18.  After any number of well-formed blocks, a character that is
    neither whitespace nor [(] stops the parser, which reports that
    character and its index. *)
Theorem stray_character_is_reported
    (text rest : list char) (blocks : list Block) (c : char) :
  program_text text blocks ->
  forallb canonical_block blocks = true ->
  isspace c = false ->
  is_char "(" c = false ->
  parse_program (text ++ c :: rest) =
  ParseFail (UnexpectedCharacter c (length text)).
Proof.
  intros Htext Hcan Hs Hp.
  destruct (parse_program_after_prefix text blocks (c :: rest) Htext Hcan)
    as (fuel' & Hfuel' & ->).
  destruct fuel' as [|f]; [simpl in Hfuel'; lia|].
  cbn [parse_program_from]. rewrite list_lookup_middle by reflexivity.
  rewrite Hs, Hp. reflexivity.
Qed.

Lemma stray_character_is_reported_witness :
  parse_program (codes "(<+>) " ++ ord "+" :: codes "(<>)") =
  ParseFail (UnexpectedCharacter (ord "+") 6).
Proof.
  apply (stray_character_is_reported (codes "(<+>) ") (codes "(<>)")
           [mkBlock normal [Literal (codes "+")]] (ord "+")).
  - apply (program_text_cons [] (mkBlock normal [Literal (codes "+")])
             (codes " ") []); [constructor|].
    apply program_text_nil. repeat constructor.
  - reflexivity.
  - reflexivity.
  - reflexivity.
Defined.

(** X19.  After any number of well-formed blocks, a [(] that is not
    followed by [<] or [?] is an error: at the end of the source the
    parser reports the end of input, otherwise the character found, each
    with the index behind the [(]. *)
Theorem bad_opening_is_reported
    (text rest : list char) (blocks : list Block) (c : char) :
  program_text text blocks ->
  forallb canonical_block blocks = true ->
  is_char "<" c = false ->
  is_char "?" c = false ->
  parse_program (text ++ [ord "("]) =
    ParseFail (UnexpectedEnd (length text + 1)) /\
  parse_program (text ++ ord "(" :: c :: rest) =
    ParseFail (InvalidToken (length text + 1) c).
Proof.
  intros Htext Hcan H1 H2. split.
  - destruct (parse_program_after_prefix text blocks [ord "("] Htext Hcan)
      as (fuel' & Hfuel' & ->).
    destruct fuel' as [|[|f]]; [simpl in Hfuel'; lia..|].
    cbn [parse_program_from]. rewrite list_lookup_middle by reflexivity.
    change (isspace (ord "(")) with false.
    change (is_char "(" (ord "(")) with true. cbn iota.
    cbn [parse_block]. rewrite list_lookup_middle by reflexivity.
    change (negb (is_char "(" (ord "("))) with false. cbn iota.
    rewrite lookup_ge_None_2; [reflexivity|].
    rewrite length_app. simpl. lia.
  - destruct (parse_program_after_prefix text blocks (ord "(" :: c :: rest)
                Htext Hcan) as (fuel' & Hfuel' & ->).
    destruct fuel' as [|[|f]]; [simpl in Hfuel'; lia..|].
    cbn [parse_program_from]. rewrite list_lookup_middle by reflexivity.
    change (isspace (ord "(")) with false.
    change (is_char "(" (ord "(")) with true. cbn iota.
    cbn [parse_block]. rewrite list_lookup_middle by reflexivity.
    change (negb (is_char "(" (ord "("))) with false. cbn iota.
    change (text ++ ord "(" :: c :: rest)
      with (text ++ [ord "("] ++ c :: rest).
    rewrite (app_assoc text [ord "("]).
    rewrite (list_lookup_middle (text ++ [ord "("]))
      by (rewrite length_app; reflexivity).
    rewrite H1, H2. reflexivity.
Qed.

Lemma bad_opening_is_reported_witness :
  parse_program (codes " (??) " ++ [ord "("]) =
    ParseFail (UnexpectedEnd (6 + 1)) /\
  parse_program (codes " (??) " ++ ord "(" :: ord "+" :: codes "+>)") =
    ParseFail (InvalidToken (6 + 1) (ord "+")).
Proof.
  apply (bad_opening_is_reported (codes " (??) ") (codes "+>)")
           [mkBlock conditional []] (ord "+")).
  - apply (program_text_cons (codes " ") (mkBlock conditional [])
             (codes " ") []); [repeat constructor|].
    apply program_text_nil. repeat constructor.
  - reflexivity.
  - reflexivity.
  - reflexivity.
Defined.

(** An opening token inside a block hands over to [parse_block]. *)
Lemma loop_step_opening fuel pre bt' rest bt its buf :
  parse_block_loop (S fuel) (pre ++ opening_token bt' ++ rest) bt
    (closing_token_of bt) (length pre) its buf =
  match parse_block fuel (pre ++ opening_token bt' ++ rest) (length pre) with
  | Parsed (nested_block, index') =>
      parse_block_loop fuel (pre ++ opening_token bt' ++ rest) bt
        (closing_token_of bt) index'
        (flush its buf ++ [Nested nested_block]) []
  | ParseFail e => ParseFail e
  | OutOfFuel => OutOfFuel
  end.
Proof.
  cbn [parse_block_loop]. rewrite slice2_app. unfold list_char_eqb.
  destruct bt', bt; cbn [opening_token codes app];
    rewrite list_lookup_middle by reflexivity;
    (rewrite bool_decide_eq_false_2 by discriminate);
    change (pre ++ ord "(" :: ?x) with (pre ++ [ord "("] ++ x);
    rewrite (app_assoc pre [ord "("]);
    (rewrite (list_lookup_middle (pre ++ [ord "("]))
       by (rewrite length_app; reflexivity));
    reflexivity.
Qed.

(** The loop gets through well-formed items, whatever follows them. *)
Lemma loop_through_items its :
  canonical_items canonical_block its = true ->
  forall bt pre rest fuel done buf,
  (buf <> [] ->
   match its with item :: _ => is_literal item = false | [] => True end) ->
  (length (unparse_items unparse_block its) + length rest < fuel)%nat ->
  exists fuel' done' buf',
    (length rest < fuel')%nat /\
    parse_block_loop fuel (pre ++ unparse_items unparse_block its ++ rest) bt
      (closing_token_of bt) (length pre) done buf =
    parse_block_loop fuel' (pre ++ unparse_items unparse_block its ++ rest) bt
      (closing_token_of bt)
      (length pre + length (unparse_items unparse_block its)) done' buf'.
Proof.
  induction its as [|[literal|b] more IH];
    intros Hcan bt pre rest fuel done buf Hbuf Hfuel.
  - exists fuel, done, buf. split; [simpl in Hfuel; lia|].
    simpl. rewrite Nat.add_0_r. reflexivity.
  - cbn [canonical_items] in Hcan.
    apply andb_true_iff in Hcan. destruct Hcan as [Hcan Hmore].
    apply andb_true_iff in Hcan. destruct Hcan as [Hcan Hnext].
    apply andb_true_iff in Hcan. destruct Hcan as [Hne Hplain].
    apply negb_true_iff, bool_decide_eq_false in Hne.
    change (unparse_items unparse_block (Literal literal :: more))
      with (literal ++ unparse_items unparse_block more) in *.
    rewrite length_app in *.
    set (text := unparse_items unparse_block more) in *.
    assert (Hsrc : pre ++ (literal ++ text) ++ rest =
                   (pre ++ literal) ++ text ++ rest)
      by (rewrite <- !app_assoc; reflexivity).
    assert (Hlit : parse_block_loop fuel (pre ++ (literal ++ text) ++ rest) bt
                     (closing_token_of bt) (length pre) done buf =
                   parse_block_loop (fuel - length literal)
                     ((pre ++ literal) ++ text ++ rest) bt
                     (closing_token_of bt) (length (pre ++ literal)) done
                     (buf ++ literal)).
    { replace fuel with (length literal + (fuel - length literal))%nat at 1
        by lia.
      rewrite <- !app_assoc.
      rewrite (loop_plain_literal literal Hplain), length_app. reflexivity. }
    destruct (IH Hmore bt (pre ++ literal) rest (fuel - length literal)%nat
                done (buf ++ literal)) as (fuel' & done' & buf' & Hf & Heq).
    { intros _. apply negb_true_iff in Hnext.
      destruct more; [exact I|exact Hnext]. }
    { fold text. lia. }
    exists fuel', done', buf'. split; [exact Hf|].
    rewrite Hlit, Heq, Hsrc, length_app. f_equal. lia.
  - cbn [canonical_items] in Hcan.
    apply andb_true_iff in Hcan. destruct Hcan as [Hcb Hmore].
    change (unparse_items unparse_block (Nested b :: more))
      with (unparse_block b ++ unparse_items unparse_block more) in *.
    rewrite length_app in *.
    set (text := unparse_items unparse_block more) in *.
    pose proof (unparse_block_length b) as Hlb.
    assert (Hsrc : pre ++ (unparse_block b ++ text) ++ rest =
                   (pre ++ unparse_block b) ++ text ++ rest)
      by (rewrite <- !app_assoc; reflexivity).
    destruct fuel as [|fuel]; [lia|].
    assert (Hnest : parse_block_loop (S fuel)
                      (pre ++ (unparse_block b ++ text) ++ rest) bt
                      (closing_token_of bt) (length pre) done buf =
                    parse_block_loop fuel
                      ((pre ++ unparse_block b) ++ text ++ rest) bt
                      (closing_token_of bt) (length (pre ++ unparse_block b))
                      (flush done buf ++ [Nested b]) []).
    { rewrite <- !app_assoc. rewrite loop_step_nested.
      rewrite (parse_block_complete b pre (text ++ rest) fuel Hcb) by lia.
      rewrite length_app. reflexivity. }
    destruct (IH Hmore bt (pre ++ unparse_block b) rest fuel
                (flush done buf ++ [Nested b]) [])
      as (fuel' & done' & buf' & Hf & Heq); [congruence|fold text; lia|].
    exists fuel', done', buf'. split; [exact Hf|].
    rewrite Hnest, Heq, Hsrc, length_app. f_equal. lia.
Qed.

Lemma parse_block_open_text inner bt' :
  open_block_text inner bt' ->
  forall pre fuel,
  (length inner <= fuel)%nat ->
  parse_block fuel (pre ++ inner) (length pre) =
  ParseFail (MissingClosingToken (closing_token_of bt')
               (length pre + length inner)).
Proof.
  induction 1 as [bt its Hcan|bt its inner bt' Hcan Hopen IH];
    intros pre fuel Hfuel.
  - rewrite length_app in Hfuel.
    assert (Hlo : length (opening_token bt) = 2%nat) by (destruct bt; reflexivity).
    destruct fuel as [|fuel]; [lia|].
    pose proof (parse_block_step_opening fuel pre bt
                  (unparse_items unparse_block its)) as Hstep.
    rewrite Hstep.
    destruct (loop_through_items its Hcan bt (pre ++ opening_token bt) []
                fuel [] []) as (fuel' & done' & buf' & Hf & Heq);
      [congruence|simpl; lia|].
    rewrite app_nil_r, <- app_assoc in Heq.
    replace (length pre + 1 + 1)%nat with (length (pre ++ opening_token bt))
      by (rewrite length_app, Hlo; lia).
    rewrite Heq. destruct fuel' as [|f]; [simpl in Hf; lia|].
    cbn [parse_block_loop]. rewrite lookup_ge_None_2.
    + rewrite !length_app. f_equal. f_equal. lia.
    + rewrite !length_app. lia.
  - rewrite !length_app in Hfuel.
    assert (Hlo : length (opening_token bt) = 2%nat) by (destruct bt; reflexivity).
    destruct fuel as [|fuel]; [lia|].
    pose proof (parse_block_step_opening fuel pre bt
                  (unparse_items unparse_block its ++ inner)) as Hstep.
    rewrite Hstep.
    destruct (loop_through_items its Hcan bt (pre ++ opening_token bt) inner
                fuel [] []) as (fuel' & done' & buf' & Hf & Heq);
      [congruence|lia|].
    rewrite <- app_assoc in Heq.
    replace (length pre + 1 + 1)%nat with (length (pre ++ opening_token bt))
      by (rewrite length_app, Hlo; lia).
    rewrite Heq. destruct fuel' as [|f]; [lia|].
    assert (Hinner : exists bt0 body, inner = opening_token bt0 ++ body).
    { destruct Hopen as [bt0 its0 _|bt0 its0 inner0 bt1 _ _]; eauto. }
    destruct Hinner as (bt0 & body & Hinner).
    set (pre' := (pre ++ opening_token bt) ++ unparse_items unparse_block its).
    assert (Hsrc : pre ++ opening_token bt ++ unparse_items unparse_block its
                     ++ inner = pre' ++ inner)
      by (unfold pre'; rewrite <- !app_assoc; reflexivity).
    replace (length (pre ++ opening_token bt)
             + length (unparse_items unparse_block its))%nat
      with (length pre') by (unfold pre'; rewrite !length_app; reflexivity).
    rewrite Hsrc. rewrite Hinner at 1 2. rewrite loop_step_opening.
    rewrite <- Hinner. rewrite (IH pre' f) by lia.
    unfold pre'. rewrite !length_app. f_equal. f_equal. lia.
Qed.

(** X20.  After any number of well-formed blocks, a block that is
    opened and never closed, with well-formed items inside and possibly
    further such blocks nested at its end, makes the parser raise the
    missing-closing-token error of the innermost open block. *)
Theorem unclosed_block_is_an_error
    (text inner : list char) (blocks : list Block) (bt : BlockType) :
  program_text text blocks ->
  forallb canonical_block blocks = true ->
  open_block_text inner bt ->
  parse_program (text ++ inner) =
  ParseFail (MissingClosingToken (closing_token_of bt)
               (length (text ++ inner))).
Proof.
  intros Htext Hcan Hopen.
  destruct (parse_program_after_prefix text blocks inner Htext Hcan)
    as (fuel' & Hfuel' & ->).
  assert (Hinner : exists bt0 body, inner = opening_token bt0 ++ body).
  { destruct Hopen as [bt0 its0 _|bt0 its0 inner0 bt1 _ _]; eauto. }
  destruct Hinner as (bt0 & body & Hinner).
  destruct fuel' as [|f]; [lia|].
  cbn [parse_program_from].
  assert (Hhead : (text ++ inner) !! length text = Some (ord "(")).
  { rewrite Hinner. destruct bt0; cbn [opening_token codes app];
      apply list_lookup_middle; reflexivity. }
  rewrite Hhead.
  change (isspace (ord "(")) with false.
  change (is_char "(" (ord "(")) with true. cbn iota.
  rewrite (parse_block_open_text inner bt Hopen text f) by lia.
  rewrite length_app. reflexivity.
Qed.

Lemma unclosed_block_is_an_error_witness :
  parse_program (codes "(<>) " ++ codes "(<+(?-") =
  ParseFail (MissingClosingToken (codes "?)") 11).
Proof.
  apply (unclosed_block_is_an_error (codes "(<>) ") (codes "(<+(?-")
           [mkBlock normal []] conditional).
  - apply (program_text_cons [] (mkBlock normal []) (codes " ") []);
      [constructor|].
    apply program_text_nil. repeat constructor.
  - reflexivity.
  - apply (open_block_nested normal [Literal (codes "+")] (codes "(?-")
             conditional); [reflexivity|].
    apply (open_block_end conditional [Literal (codes "-")]). reflexivity.
Defined.

(** ** More on comment stripping *)

Lemma elem_of_join c sep lines :
  c ∈ join sep lines -> c ∈ sep \/ exists line, line ∈ lines /\ c ∈ line.
Proof.
  induction lines as [|line more IH]; [intros H; inversion H|].
  destruct more as [|line' more'].
  - simpl. intros H. right. exists line. split; [left|exact H].
  - change (join sep (line :: line' :: more'))
      with (line ++ sep ++ join sep (line' :: more')).
    rewrite !elem_of_app. intros [H|[H|H]].
    + right. exists line. split; [left|exact H].
    + left. exact H.
    + destruct (IH H) as [Hs|(l & Hl & Hc)]; [left; exact Hs|].
      right. exists l. split; [right; exact Hl|exact Hc].
Qed.

Lemma splitlines_no_linebreak source : Forall no_linebreak (splitlines source).
Proof. apply splitlines_from_no_linebreak. constructor. Qed.

(** X21.  No semicolon is left in the result of [strip_comments]. *)
Theorem strip_comments_leaves_no_semicolon (source : list char) :
  ord ";" ∉ strip_comments source.
Proof.
  unfold strip_comments. intros H. apply elem_of_join in H.
  destruct H as [H|(line & Hline & Hc)].
  - apply list_elem_of_singleton in H. discriminate H.
  - apply list_elem_of_fmap in Hline. destruct Hline as (l & -> & _).
    destruct (strip_line_cut l) as (comment & _ & Hnot & _). exact (Hnot Hc).
Qed.

(** X22.  The only line terminator in the result of [strip_comments] is
    the newline character: carriage returns, form feeds and the other
    terminators [str.splitlines] knows are gone. *)
Theorem strip_comments_normalises_terminators (source : list char) (c : char) :
  c ∈ strip_comments source ->
  is_linebreak c = true ->
  c = 10%N.
Proof.
  unfold strip_comments. intros H Hlb. apply elem_of_join in H.
  destruct H as [H|(line & Hline & Hc)].
  - apply list_elem_of_singleton in H. exact H.
  - apply list_elem_of_fmap in Hline. destruct Hline as (l & -> & Hl).
    pose proof (splitlines_no_linebreak source) as Hall.
    rewrite Forall_forall in Hall.
    pose proof (strip_line_no_linebreak l (Hall l Hl)) as Hno.
    unfold no_linebreak in Hno. rewrite Forall_forall in Hno.
    rewrite (Hno c Hc) in Hlb. discriminate Hlb.
Qed.

Lemma strip_comments_normalises_terminators_witness :
  (10%N ∈ strip_comments [97; 13; 10; 98; 12; 99]%N) /\ 10%N = 10%N.
Proof.
  assert (H : 10%N ∈ strip_comments [97; 13; 10; 98; 12; 99]%N)
    by (apply list_elem_of_In; vm_compute; auto).
  split; [exact H|].
  apply (strip_comments_normalises_terminators [97; 13; 10; 98; 12; 99]%N 10%N).
  - exact H.
  - reflexivity.
Defined.

Lemma splitlines_from_nil s line : splitlines_from s line = [] -> s = [].
Proof.
  revert line. induction s as [|c s IH]; intros line; [reflexivity|].
  simpl. destruct (is_linebreak c).
  - destruct (N.eqb c 13); [|discriminate].
    destruct s as [|c' s']; [discriminate|].
    destruct (N.eqb c' 10); discriminate.
  - intros H. pose proof (IH _ H) as ->. simpl in H.
    destruct (line ++ [c]) eqn:E; [destruct line; discriminate|discriminate].
Qed.

(** Splitting a text whose terminators are newline characters, and that
    does not end with one, and joining the lines gives the text back. *)
Lemma join_splitlines_from s :
  forall line,
  Forall (fun c => is_linebreak c = true -> c = 10%N) s ->
  last s <> Some 10%N ->
  join [10%N] (splitlines_from s line) = line ++ s.
Proof.
  induction s as [|c s IH]; intros line Hlb Hlast.
  - simpl. destruct line; [reflexivity|]. simpl. rewrite app_nil_r.
    reflexivity.
  - apply Forall_cons in Hlb. destruct Hlb as [Hc Hlb].
    assert (Hlast' : s <> [] -> last s <> Some 10%N).
    { intros Hne. destruct s; [congruence|exact Hlast]. }
    simpl. destruct (is_linebreak c) eqn:Hbr.
    + assert (c = 10%N) as -> by (apply Hc; reflexivity).
      change (N.eqb 10 13) with false. cbn iota.
      destruct s as [|c' s'] eqn:Hs; [exfalso; apply Hlast; reflexivity|].
      rewrite <- Hs in *.
      destruct (splitlines_from s []) as [|l ls] eqn:Hsplit.
      { apply splitlines_from_nil in Hsplit. congruence. }
      change (join [10%N] (line :: l :: ls))
        with (line ++ [10%N] ++ join [10%N] (l :: ls)).
      rewrite <- Hsplit, IH; [reflexivity|exact Hlb|].
      apply Hlast'. congruence.
    + destruct s as [|c' s'] eqn:Hs.
      * simpl. destruct (line ++ [c]) eqn:Hl; [destruct line; discriminate|].
        reflexivity.
      * rewrite <- Hs in *. rewrite IH; [|exact Hlb|apply Hlast'; congruence].
        rewrite <- app_assoc. reflexivity.
Qed.

Lemma splitlines_from_chars s :
  forall line l c,
  l ∈ splitlines_from s line -> c ∈ l -> c ∈ line \/ c ∈ s.
Proof.
  remember (length s) as n eqn:Hn. revert s Hn.
  induction n as [n IH] using lt_wf_ind.
  intros [|x s'] Hn line l c Hl Hc; simpl in *.
  - destruct line; [inversion Hl|].
    apply list_elem_of_singleton in Hl. subst l. left. exact Hc.
  - assert (Hs' : forall line0, l ∈ splitlines_from s' line0 ->
                  c ∈ line0 \/ c ∈ x :: s').
    { intros line0 H0. assert (Hlt : (length s' < n)%nat) by lia.
      destruct (IH _ Hlt s' eq_refl line0 l c H0 Hc) as [H|H];
        [left; exact H|right; right; exact H]. }
    assert (Hhead : l ∈ line :: splitlines_from s' [] ->
                    c ∈ line \/ c ∈ x :: s').
    { intros H. apply elem_of_cons in H. destruct H as [->|H];
        [left; exact Hc|].
      destruct (Hs' [] H) as [H0|H0]; [inversion H0|right; exact H0]. }
    destruct (is_linebreak x).
    + destruct (N.eqb x 13); [|apply Hhead, Hl].
      destruct s' as [|c' s'']; [apply Hhead, Hl|].
      destruct (N.eqb c' 10); [|apply Hhead, Hl].
      apply elem_of_cons in Hl. destruct Hl as [->|Hl]; [left; exact Hc|].
      assert (Hlt : (length s'' < n)%nat) by (simpl in Hn; lia).
      destruct (IH _ Hlt s'' eq_refl [] l c Hl Hc) as [H|H];
        [inversion H|right; right; right; exact H].
    + destruct (Hs' _ Hl) as [H|H]; [|right; exact H].
      apply elem_of_app in H. destruct H as [H|H]; [left; exact H|].
      apply list_elem_of_singleton in H. subst. right. left.
Qed.

(** X23.  A text without semicolons, whose line terminators are newline
    characters and which does not end with one, passes [strip_comments]
    unchanged. *)
Theorem strip_comments_keeps_plain_text (source : list char) :
  ord ";" ∉ source ->
  Forall (fun c => is_linebreak c = true -> c = 10%N) source ->
  last source <> Some 10%N ->
  strip_comments source = source.
Proof.
  intros Hsemi Hlb Hlast. unfold strip_comments.
  assert (Hmap : map strip_line (splitlines source) = splitlines source).
  { rewrite <- (map_id (splitlines source)) at 2.
    apply map_ext_in. intros l Hl. apply strip_line_unchanged.
    intros Hc. apply Hsemi. apply list_elem_of_In in Hl.
    destruct (splitlines_from_chars source [] l _ Hl Hc) as [H|H];
      [inversion H|exact H]. }
  rewrite Hmap. unfold splitlines.
  apply (join_splitlines_from source [] Hlb Hlast).
Qed.

Lemma strip_comments_keeps_plain_text_witness :
  strip_comments (codes "(< +

 . >)") = codes "(< +

 . >)".
Proof.
  apply (strip_comments_keeps_plain_text (codes "(< +

 . >)")).
  - intros H. apply list_elem_of_In in H. vm_compute in H.
    repeat (destruct H as [H|H]; [discriminate H|]). exact H.
  - repeat constructor; discriminate.
  - discriminate.
Defined.

Lemma strip_line_before_semicolon line :
  strip_line line = before_semicolon line.
Proof.
  induction line as [|c line IH]; [reflexivity|].
  unfold strip_line in *. cbn [find before_semicolon].
  destruct (N.eqb c (ord ";")); [reflexivity|].
  destruct (find_spec (ord ";") line) as [[Hf _]|(Hpos & _ & _)].
  - rewrite Hf in IH |- *. change (-1 =? -1) with true in *.
    cbn [negb] in *. rewrite <- IH. reflexivity.
  - revert Hpos IH. generalize (find (ord ";") line) as r. intros r Hpos IH.
    destruct (Z.eqb_spec r (-1)); [lia|].
    destruct (Z.eqb_spec (r + 1) (-1)); [lia|]. cbn [negb] in *.
    replace (Z.to_nat (r + 1)) with (S (Z.to_nat r)) by lia.
    cbn [take]. rewrite IH. reflexivity.
Qed.

Lemma before_semicolon_comment cur x y :
  before_semicolon (cur ++ ord ";" :: x) =
  before_semicolon (cur ++ ord ";" :: y).
Proof.
  induction cur as [|c cur IH].
  - cbn [app before_semicolon]. rewrite N.eqb_refl. reflexivity.
  - cbn [app before_semicolon]. rewrite IH. reflexivity.
Qed.

(** At the end of the text or in front of a terminator the current line
    is complete, and what follows does not depend on it. *)
Lemma splitlines_from_line_end rest :
  rest = [] \/ (exists lb rest', rest = lb :: rest' /\ is_linebreak lb = true) ->
  exists tail, forall line, line <> [] ->
    splitlines_from rest line = line :: tail.
Proof.
  intros [->|(lb & rest' & -> & Hlb)].
  - exists []. intros line Hne. simpl. destruct line; [congruence|reflexivity].
  - simpl. rewrite Hlb. destruct (N.eqb lb 13).
    + destruct rest' as [|c' s'']; [eauto|]. destruct (N.eqb c' 10); eauto.
    + eauto.
Qed.

Lemma comment_lines_agree c1 c2 rest :
  no_linebreak c1 -> no_linebreak c2 ->
  rest = [] \/ (exists lb rest', rest = lb :: rest' /\ is_linebreak lb = true) ->
  forall a line,
  map strip_line (splitlines_from (a ++ ord ";" :: c1 ++ rest) line) =
  map strip_line (splitlines_from (a ++ ord ";" :: c2 ++ rest) line).
Proof.
  intros H1 H2 Hrest a.
  remember (length a) as n eqn:Hn. revert a Hn.
  induction n as [n IH] using lt_wf_ind.
  intros [|c a'] Hn line.
  - destruct (splitlines_from_line_end rest Hrest) as (tail & Htail).
    cbn [app splitlines_from].
    change (is_linebreak (ord ";")) with false. cbn iota.
    rewrite !splitlines_from_no_break by assumption.
    rewrite !Htail by (intros E; apply app_eq_nil in E; destruct E as [E _];
                       apply app_eq_nil in E; destruct E; discriminate).
    cbn [map]. f_equal.
    rewrite !strip_line_before_semicolon, <- !app_assoc.
    apply before_semicolon_comment.
  - simpl in Hn.
    assert (Hrec : forall line0,
      map strip_line (splitlines_from (a' ++ ord ";" :: c1 ++ rest) line0) =
      map strip_line (splitlines_from (a' ++ ord ";" :: c2 ++ rest) line0)).
    { assert (Hlt : (length a' < n)%nat) by lia. apply (IH _ Hlt _ eq_refl). }
    cbn [app splitlines_from]. destruct (is_linebreak c).
    + destruct (N.eqb c 13); [|cbn [map]; f_equal; exact (Hrec [])].
      destruct a' as [|c' a''].
      * cbn [app]. change (N.eqb (ord ";") 10) with false. cbn iota.
        cbn [map]. f_equal. exact (Hrec []).
      * cbn [app]. destruct (N.eqb c' 10).
        -- cbn [map]. f_equal.
           assert (Hlt : (length a'' < n)%nat) by (simpl in Hn; lia).
           apply (IH _ Hlt _ eq_refl).
        -- cbn [map]. f_equal. exact (Hrec []).
    + apply Hrec.
Qed.

(** X24.  What a comment says does not matter: two texts that differ
    only in the characters between a semicolon and the end of its line
    are stripped to the same result. *)
Theorem comment_text_does_not_matter
    (a c1 c2 rest : list char) :
  no_linebreak c1 -> no_linebreak c2 ->
  rest = [] \/ (exists lb rest', rest = lb :: rest' /\ is_linebreak lb = true) ->
  strip_comments (a ++ ord ";" :: c1 ++ rest) =
  strip_comments (a ++ ord ";" :: c2 ++ rest).
Proof.
  intros H1 H2 Hrest. unfold strip_comments, splitlines.
  rewrite (comment_lines_agree c1 c2 rest H1 H2 Hrest a []). reflexivity.
Qed.

Lemma comment_text_does_not_matter_witness :
  strip_comments (codes "(<+" ++ ord ";" :: codes " add one" ++ codes "
>)") =
  strip_comments (codes "(<+" ++ ord ";" :: codes "(<.>)" ++ codes "
>)").
Proof.
  apply (comment_text_does_not_matter (codes "(<+") (codes " add one")
           (codes "(<.>)") (codes "
>)")).
  - repeat constructor.
  - repeat constructor.
  - right. exists 10%N, (codes ">)"). split; reflexivity.
Defined.
